(** * Verification of the reservation core of the NGO Connect platform

    The development embeds the booking handler [book_slot] of
    [src/project/app.py], the two event handlers that touch the same rows
    ([ngo_delete_event], [ngo_toggle_event_status]) and the migration runner
    of [src/project/database/migrations.py], and states the properties of the
    design document over these embeddings.

    Tables are finite maps from primary key to row where the code looks rows
    up by key ([TimeSlot.query.get], [Event.query.get_or_404]) and lists in
    insertion order where the code filters them ([filter_by(..).first()],
    [filter_by(..).delete()]).  Columns that no modelled handler reads are
    left out of the rows.

    The session of a request is modelled as far as [db.session.begin()]
    depends on it: a query begins a transaction on the session, and [begin]
    raises on a session that has one. *)

From stdpp Require Import gmap strings list fin_maps sorting.

Local Open Scope string_scope.
Local Open Scope list_scope.
Local Open Scope Z_scope.

(** ** The ledger: rows and tables *)

Module Ledger.

(** [current_user]: the identity and role handed over by the login layer. *)
Record User := mkUser {
  user_id : Z;
  role : string
}.

Record Volunteer := mkVolunteer {
  volunteer_id : Z;
  volunteer_user_id : Z
}.

Record NGO := mkNGO {
  ngo_id : Z;
  ngo_user_id : Z
}.

Record Event := mkEvent {
  event_ngo_id : Z;
  event_max_volunteers : Z;
  is_active : bool
}.

Record TimeSlot := mkTimeSlot {
  slot_event_id : Z;
  max_volunteers : Z;
  current_volunteers : Z;
  is_available : bool
}.

Record Booking := mkBooking {
  booking_id : Z;
  booking_volunteer_id : Z;
  time_slot_id : Z;
  booking_event_id : Z;
  status : string
}.

(** The database session's committed state.  [next_booking_id] is the
    auto-increment counter of the bookings table. *)
Record DB := mkDB {
  volunteers : list Volunteer;
  ngos : list NGO;
  events : gmap Z Event;
  time_slots : gmap Z TimeSlot;
  bookings : list Booking;
  next_booking_id : Z
}.

Global Instance User_eq_dec : EqDecision User.
Proof. solve_decision. Defined.
Global Instance Volunteer_eq_dec : EqDecision Volunteer.
Proof. solve_decision. Defined.
Global Instance TimeSlot_eq_dec : EqDecision TimeSlot.
Proof. solve_decision. Defined.
Global Instance Booking_eq_dec : EqDecision Booking.
Proof. solve_decision. Defined.

Definition set_events (db : DB) (es : gmap Z Event) : DB :=
  mkDB (volunteers db) (ngos db) es (time_slots db) (bookings db)
       (next_booking_id db).

Definition set_bookings (db : DB) (bs : list Booking) : DB :=
  mkDB (volunteers db) (ngos db) (events db) (time_slots db) bs
       (next_booking_id db).

(** [Volunteer.query.filter_by(user_id=uid).first()] *)
Definition volunteer_of_user (db : DB) (uid : Z) : option Volunteer :=
  head (filter (λ v, volunteer_user_id v = uid) (volunteers db)).

(** [NGO.query.filter_by(user_id=uid).first()] *)
Definition ngo_of_user (db : DB) (uid : Z) : option NGO :=
  head (filter (λ n, ngo_user_id n = uid) (ngos db)).

(** [Booking.query.filter_by(volunteer_id=v, time_slot_id=s)] *)
Definition bookings_of (db : DB) (v s : Z) : list Booking :=
  filter (λ b, booking_volunteer_id b = v ∧ time_slot_id b = s)
         (bookings db).

(** The bookings that hold a unit of a slot: those that reference it and
    are not cancelled. *)
Definition holds_unit (s : Z) (b : Booking) : Prop :=
  time_slot_id b = s ∧ status b ≠ "cancelled".

Global Instance holds_unit_dec s b : Decision (holds_unit s b).
Proof. unfold holds_unit. apply _. Defined.

Definition active_bookings (s : Z) (bs : list Booking) : list Booking :=
  filter (holds_unit s) bs.

Definition reserved (s : Z) (bs : list Booking) : Z :=
  Z.of_nat (length (active_bookings s bs)).

(** The capacity invariant of the design: every slot's cached counter is
    the number of non-cancelled bookings that reference the slot, and it
    does not exceed the slot's capacity. *)
Definition slot_consistent (db : DB) (s : Z) (slot : TimeSlot) : Prop :=
  current_volunteers slot = reserved s (bookings db)
  ∧ current_volunteers slot ≤ max_volunteers slot.

Definition capacity_invariant (db : DB) : Prop :=
  ∀ s slot, time_slots db !! s = Some slot → slot_consistent db s slot.

(** Every booking carries the event of the slot it references. *)
Definition events_agree (db : DB) : Prop :=
  ∀ b slot,
    b ∈ bookings db →
    time_slots db !! time_slot_id b = Some slot →
    booking_event_id b = slot_event_id slot.

End Ledger.

(** ** Responses *)

Module Http.

(** [jsonify({key: text}), code] *)
Record Response := mkResponse {
  body_key : string;
  body_text : string;
  status_code : Z
}.

Definition error (msg : string) (code : Z) : Response :=
  mkResponse "error" msg code.

Definition message (msg : string) : Response :=
  mkResponse "message" msg 200.

Global Instance Response_eq_dec : EqDecision Response.
Proof. solve_decision. Defined.

End Http.

(** ** Exceptions of the storage layer *)

Module Storage.

(** The calls into the database that a handler makes inside its [try]
    block; each of them may raise. *)
Inductive StorageOp :=
| OpQueryVolunteer
| OpQueryBooking
| OpGetSlot
| OpDeleteBookings
| OpDeleteSlots
| OpCommit.

(** A computation inside a [try] block: the text of the exception raised,
    or a value. *)
Definition Try (A : Type) : Type := (string + A)%type.

(** A storage call that raises when the storage layer reports a fault and
    continues with [k] otherwise. *)
Definition attempt {A} (raised : option string) (k : Try A) : Try A :=
  match raised with
  | Some e => inl e
  | None => k
  end.

(** What [db.session.begin()] depends on: whether the session has a
    transaction.  The session of a request starts without one; the first
    statement it executes begins one (the session's autobegin), which
    stays until [commit] or [rollback]. *)
Inductive SessionState :=
| NoTransaction
| InTransaction.

Global Instance SessionState_eq_dec : EqDecision SessionState.
Proof. solve_decision. Defined.

(** A query on the session. *)
Definition autobegin (session : SessionState) : SessionState := InTransaction.

(** The text of the [InvalidRequestError] of SQLAlchemy. *)
Definition already_begun : string :=
  "A transaction is already begun on this Session.".

(** [db.session.begin()]: no statement is sent, so the database has no part
    in it; on a session that has a transaction it raises. *)
Definition begin (session : SessionState) : Try SessionState :=
  match session with
  | NoTransaction => inr InTransaction
  | InTransaction => inl already_begun
  end.

End Storage.

(** ** The booking handler *)

Module BookSlot.
Import Ledger Http Storage.

(** [request.json]: the two fields the handler reads.  [None] is a missing
    key; a present key carries an integer. *)
Record BookRequest := mkBookRequest {
  req_slot_id : option Z;
  req_event_id : option Z
}.

Global Instance BookRequest_eq_dec : EqDecision BookRequest.
Proof. solve_decision. Defined.

(** Python truthiness of [data.get(key)]: a missing key and [0] are falsy. *)
Definition truthy (x : option Z) : option Z :=
  match x with
  | Some n => if decide (n = 0) then None else Some n
  | None => None
  end.

Section Handler.

(** Which storage calls raise, and with what text. *)
Variable fault : StorageOp → option string.

Notation "op ⨾ k" := (attempt (fault op) k)
  (at level 100, right associativity, only parsing).

(** Lines 631-649: the checks made before [db.session.begin()].  The
    result is either the response of an early return or the volunteer, slot
    id and event id the handler goes on with, together with the session as
    the two queries leave it. *)
Definition book_slot_checks (session : SessionState) (db : DB)
    (current_user : User) (data : BookRequest)
    : Try (Response + Volunteer * Z * Z * SessionState) :=
  match truthy (req_slot_id data), truthy (req_event_id data) with
  | Some slot_id, Some event_id =>
      OpQueryVolunteer ⨾
      let session1 := autobegin session in
      match volunteer_of_user db (user_id current_user) with
      | None => inr (inl (error "Volunteer profile not found" 400))
      | Some volunteer =>
          OpQueryBooking ⨾
          let session2 := autobegin session1 in
          match head (bookings_of db (volunteer_id volunteer) slot_id) with
          | Some existing_booking =>
              inr (inl (error "You have already booked this slot" 400))
          | None => inr (inr (volunteer, slot_id, event_id, session2))
          end
      end
  | _, _ => inr (inl (error "Missing slot_id or event_id" 400))
  end.

(** Lines 662-673: the writes of a successful booking. *)
Definition reserve_unit (db : DB) (volunteer : Volunteer)
    (slot_id event_id : Z) (slot : TimeSlot) : DB :=
  let booking :=
    mkBooking (next_booking_id db) (volunteer_id volunteer) slot_id
              event_id "confirmed" in
  let current := current_volunteers slot + 1 in
  let slot' :=
    mkTimeSlot (slot_event_id slot) (max_volunteers slot) current
      (if decide (max_volunteers slot ≤ current) then false
       else is_available slot) in
  mkDB (volunteers db) (ngos db) (events db)
       (<[slot_id := slot']> (time_slots db))
       (bookings db ++ [booking])
       (next_booking_id db + 1).

(** Lines 652-676: [with db.session.begin()] and its body.  [begin] is
    called on the session as the checks have left it.  Past it the slot row
    is read under its lock, so the block is one atomic step; leaving the
    block, by [return] or at its end, commits. *)
Definition book_slot_transaction (session : SessionState) (db : DB)
    (volunteer : Volunteer) (slot_id event_id : Z) : Try (Response * DB) :=
  match begin session with
  | inl e => inl e
  | inr _ =>
      OpGetSlot ⨾
      match time_slots db !! slot_id with
      | None => OpCommit ⨾ inr (error "Slot not available" 400, db)
      | Some slot =>
          if negb (is_available slot) then
            OpCommit ⨾ inr (error "Slot not available" 400, db)
          else if decide (max_volunteers slot ≤ current_volunteers slot) then
            OpCommit ⨾ inr (error "Slot is full" 400, db)
          else
            OpCommit ⨾
            inr (message "Slot booked successfully",
                 reserve_unit db volunteer slot_id event_id slot)
      end
  end.

Definition book_slot_try (session : SessionState) (db : DB)
    (current_user : User) (data : BookRequest) : Try (Response * DB) :=
  match book_slot_checks session db current_user data with
  | inl e => inl e
  | inr (inl response) => inr (response, db)
  | inr (inr (volunteer, slot_id, event_id, session')) =>
      book_slot_transaction session' db volunteer slot_id event_id
  end.

(** The session on which the handler starts: [current_user] has been
    loaded by the query of [load_user]. *)
Definition request_session : SessionState := autobegin NoTransaction.

(** [book_slot]: the role check, the [try] block, and the handler of the
    exceptions it raises, which rolls the session back. *)
Definition book_slot (db : DB) (current_user : User)
    (data : BookRequest) : Response * DB :=
  if decide (role current_user = "volunteer") then
    match book_slot_try request_session db current_user data with
    | inl e => (error ("Booking failed: " +:+ e) 500, db)
    | inr out => out
    end
  else (error "Only volunteers can book slots" 403, db).

End Handler.

(** A database that never raises. *)
Definition no_fault : StorageOp → option string := λ _, None.

(** The response of the [except] clause. *)
Definition booking_failed (e : string) : Response :=
  error ("Booking failed: " +:+ e) 500.

Definition booked : Response := message "Slot booked successfully".
Definition slot_not_available : Response := error "Slot not available" 400.
Definition slot_is_full : Response := error "Slot is full" 400.
Definition already_booked : Response :=
  error "You have already booked this slot" 400.

(** A call that passes the checks in front of the duplicate check: made
    by a volunteer, with both identifiers present, for a user that has a
    volunteer profile. *)
Definition eligible (db : DB) (current_user : User) (data : BookRequest)
    (volunteer : Volunteer) (slot_id event_id : Z) : Prop :=
  role current_user = "volunteer"
  ∧ truthy (req_slot_id data) = Some slot_id
  ∧ truthy (req_event_id data) = Some event_id
  ∧ volunteer_of_user db (user_id current_user) = Some volunteer.

Definition quiet (fault : StorageOp → option string) : Prop :=
  ∀ op, fault op = None.

(** The duplicate rule, with the bookings that count as a prior booking
    as a parameter: the call is answered "already booked" exactly when
    the claimant has a booking on the slot that counts. *)
Definition duplicate_rule (counts : Booking → Prop)
    (fault : StorageOp → option string) (db : DB) (current_user : User)
    (data : BookRequest) (volunteer : Volunteer) (slot_id : Z) : Prop :=
  (book_slot fault db current_user data).1 = already_booked
  ↔ ∃ b, b ∈ bookings db
         ∧ booking_volunteer_id b = volunteer_id volunteer
         ∧ time_slot_id b = slot_id
         ∧ counts b.

(** The answer to a call that names no existing slot differs from the
    answer to a call on a slot that exists and is closed. *)
Definition unknown_slot_is_distinct
    (fault : StorageOp → option string) : Prop :=
  ∀ db u data v s e u' data' v' s' e' slot',
    eligible db u data v s e →
    bookings_of db (volunteer_id v) s = [] →
    time_slots db !! s = None →
    eligible db u' data' v' s' e' →
    bookings_of db (volunteer_id v') s' = [] →
    time_slots db !! s' = Some slot' →
    is_available slot' = false →
    (book_slot fault db u data).1 ≠ (book_slot fault db u' data').1.

End BookSlot.

(** ** The event handlers that touch slots and bookings *)

Module EventAdmin.
Import Ledger Http Storage.

(** What an HTML handler leaves behind: the flashed message with its
    category, or the status of an aborted request. *)
Inductive Outcome :=
| Flashed (msg category : string)
| Aborted (code : Z).

Section Handlers.

Variable fault : StorageOp → option string.

Notation "op ⨾ k" := (attempt (fault op) k)
  (at level 100, right associativity, only parsing).

(** The guards shared by the NGO handlers: role, NGO profile,
    [Event.query.get_or_404] and ownership of the event. *)
Definition owned_event (db : DB) (current_user : User) (event_id : Z)
    (denied : string) : Outcome + Event :=
  if decide (role current_user = "ngo") then
    match ngo_of_user db (user_id current_user) with
    | None => inl (Flashed "NGO profile not found." "error")
    | Some ngo =>
        match events db !! event_id with
        | None => inl (Aborted 404)
        | Some event =>
            if decide (event_ngo_id event = ngo_id ngo) then inr event
            else inl (Flashed denied "error")
        end
    end
  else inl (Flashed "Access denied. NGO access required." "error").

(** Lines 557-562: bookings and slots are removed by their own
    [event_id] column, then the event row. *)
Definition delete_cascade (db : DB) (event_id : Z) : DB :=
  mkDB (volunteers db) (ngos db)
       (delete event_id (events db))
       (filter (λ kv, slot_event_id kv.2 ≠ event_id) (time_slots db))
       (filter (λ b, booking_event_id b ≠ event_id) (bookings db))
       (next_booking_id db).

Definition ngo_delete_event (db : DB) (current_user : User)
    (event_id : Z) : Outcome * DB :=
  match owned_event db current_user event_id
          "Access denied. You can only delete your own events." with
  | inl out => (out, db)
  | inr event =>
      match (OpDeleteBookings ⨾ OpDeleteSlots ⨾ OpCommit ⨾
             inr (delete_cascade db event_id)) with
      | inr db' => (Flashed "Event deleted successfully!" "success", db')
      | inl e => (Flashed ("Error deleting event: " +:+ e) "error", db)
      end
  end.

(** Lines 588-593: [event.is_active = not event.is_active]. *)
Definition toggle_event (db : DB) (event_id : Z) (event : Event) : DB :=
  set_events db
    (<[event_id := mkEvent (event_ngo_id event)
                           (event_max_volunteers event)
                           (negb (is_active event))]> (events db)).

Definition ngo_toggle_event_status (db : DB) (current_user : User)
    (event_id : Z) : Outcome * DB :=
  match owned_event db current_user event_id
          "Access denied. You can only modify your own events." with
  | inl out => (out, db)
  | inr event =>
      match (OpCommit ⨾ inr (toggle_event db event_id event)) with
      | inr db' =>
          (Flashed (if negb (is_active event)
                    then "Event activated successfully!"
                    else "Event deactivated successfully!") "success",
           db')
      | inl e =>
          (Flashed ("Error updating event status: " +:+ e) "error", db)
      end
  end.

End Handlers.

End EventAdmin.

(** ** Cancellation *)

Module Guard.
Import Ledger.

(** The rejection kinds of the design's error taxonomy. *)
Inductive Rejection :=
| SlotFull
| SlotClosed
| DuplicateBooking
| Contention
| NotFound
| Forbidden.

(** [Booking.query.get(id)] *)
Definition find_booking (db : DB) (id : Z) : option Booking :=
  head (filter (λ b, booking_id b = id) (bookings db)).

Definition cancelled_copy (b : Booking) : Booking :=
  mkBooking (booking_id b) (booking_volunteer_id b) (time_slot_id b)
            (booking_event_id b) "cancelled".

(** Rewrites the row with primary key [id]. *)
Fixpoint mark_cancelled (id : Z) (bs : list Booking) : list Booking :=
  match bs with
  | [] => []
  | b :: bs' =>
      if decide (booking_id b = id) then cancelled_copy b :: bs'
      else b :: mark_cancelled id bs'
  end.

(** Modelled from the spec: the Capacity Guard's [Cancel(bookingID)], which
    no source file implements.  The design document says that it
    "transitions status confirmed→cancelled and atomically decrements
      [reserved_count] (re-opening the Slot if it had flipped closed)", in
    one indivisible operation.  An identifier that names no confirmed
    booking, or a booking whose slot is gone, is answered with
    [NotFound], the only kind the taxonomy offers for it. *)
Definition Cancel (db : DB) (id : Z) : Rejection + DB :=
  match find_booking db id with
  | None => inl NotFound
  | Some b =>
      if decide (status b = "confirmed") then
        match time_slots db !! time_slot_id b with
        | None => inl NotFound
        | Some slot =>
            let slot' :=
              mkTimeSlot (slot_event_id slot) (max_volunteers slot)
                (current_volunteers slot - 1)
                (if decide (max_volunteers slot ≤ current_volunteers slot)
                 then true else is_available slot) in
            inr (mkDB (volunteers db) (ngos db) (events db)
                      (<[time_slot_id b := slot']> (time_slots db))
                      (mark_cancelled id (bookings db))
                      (next_booking_id db))
        end
      else inl NotFound
  end.

End Guard.

(** ** Sequences of core operations *)

Module Core.
Import Ledger Http Storage BookSlot EventAdmin Guard.




End Core.

(** ** Sample data *)

Module Sample.
Import Ledger Http Storage BookSlot EventAdmin Guard.

Definition alice : User := mkUser 1 "volunteer".
Definition bob : User := mkUser 2 "volunteer".
Definition owner : User := mkUser 9 "ngo".

(** Two active events of one NGO; event 1 has slot 10 with [cap] places,
    event 2 has slot 20. *)
Definition fresh (cap : Z) : DB :=
  mkDB [mkVolunteer 101 1; mkVolunteer 102 2; mkVolunteer 103 3]
       [mkNGO 5 9]
       (<[1 := mkEvent 5 cap true]> (<[2 := mkEvent 5 4 true]> ∅))
       (<[10 := mkTimeSlot 1 cap 0 true]>
          (<[20 := mkTimeSlot 2 4 0 true]> ∅))
       []
       1.

Definition ask (slot_id event_id : Z) : BookRequest :=
  mkBookRequest (Some slot_id) (Some event_id).

(** A database that is lost when the bookings are queried. *)
Definition query_fails : StorageOp → option string :=
  λ op, match op with OpQueryBooking => Some "connection lost" | _ => None end.

(** Alice's booking on slot 10 was cancelled; the slot has room. *)
Definition after_cancellation : DB :=
  set_bookings (fresh 5) [mkBooking 1 101 10 1 "cancelled"].

(** The rows of a ledger in which slot 10 has one place and Alice's
    confirmed booking holds it. *)
Definition slot_taken : DB :=
  mkDB (volunteers (fresh 1)) (ngos (fresh 1)) (events (fresh 1))
       (<[10 := mkTimeSlot 1 1 1 false]>
          (<[20 := mkTimeSlot 2 4 0 true]> ∅))
       [mkBooking 1 101 10 1 "confirmed"]
       2.

(** Rows in which Alice's booking on slot 10 of event 1 carries the
    identifier of event 2. *)
Definition misfiled : DB :=
  mkDB (volunteers (fresh 5)) (ngos (fresh 5)) (events (fresh 5))
       (<[10 := mkTimeSlot 1 5 1 true]>
          (<[20 := mkTimeSlot 2 4 0 true]> ∅))
       [mkBooking 1 101 10 2 "confirmed"]
       2.

(** Event 1 was deactivated by its owner. *)
Definition event_deactivated : DB :=
  (ngo_toggle_event_status no_fault (fresh 2) owner 1).2.

End Sample.

(** ** Concurrent booking calls *)

Module Concurrent.
Import Ledger Http Storage BookSlot.

(** A call in flight.  The handler reads first (lines 631-649) and then
    enters [with db.session.begin()] (lines 652-676), whose body works on
    the locked slot row, so a call takes two atomic steps.  Each call has a
    session of its own. *)
Inductive Call :=
| Arrived (current_user : User) (data : BookRequest)
| Checked (session : SessionState) (volunteer : Volunteer)
    (slot_id event_id : Z)
| Answered (response : Response).

Global Instance Call_eq_dec : EqDecision Call.
Proof. solve_decision. Defined.

Section Steps.

Variable fault : StorageOp → option string.

Definition failed (e : string) : Call := Answered (booking_failed e).

(** The next atomic step of a call against the committed state. *)
Definition advance (db : DB) (c : Call) : option (DB * Call) :=
  match c with
  | Arrived current_user data =>
      if decide (role current_user = "volunteer") then
        match book_slot_checks fault request_session db current_user
                data with
        | inl e => Some (db, failed e)
        | inr (inl response) => Some (db, Answered response)
        | inr (inr (volunteer, slot_id, event_id, session)) =>
            Some (db, Checked session volunteer slot_id event_id)
        end
      else Some (db, Answered (error "Only volunteers can book slots" 403))
  | Checked session volunteer slot_id event_id =>
      match book_slot_transaction fault session db volunteer slot_id
              event_id with
      | inl e => Some (db, failed e)
      | inr (response, db') => Some (db', Answered response)
      end
  | Answered _ => None
  end.

(** Any call that is not answered yet may take its next step. *)
Inductive step : DB * list Call → DB * list Call → Prop :=
| step_call db db' before c c' after :
    advance db c = Some (db', c') →
    step (db, before ++ c :: after) (db', before ++ c' :: after).

End Steps.




(** A call as the steps of the handler leave it: once the checks are done
    its session has a transaction, and its answer is not success. *)
Definition handled (c : Call) : Prop :=
  match c with
  | Arrived _ _ => True
  | Checked session _ _ _ => session = InTransaction
  | Answered response => response ≠ booked
  end.

(** The calls of a list of requests, none of them started. *)
Definition arrive (requests : list (User * BookRequest)) : list Call :=
  (λ r, Arrived r.1 r.2) <$> requests.


End Concurrent.

(** ** The migration runner *)

Module Migrations.
Import Storage.

Record Migration := mkMigration {
  version : Z;
  name : string;
  description : string;
  sql : string
}.

(** [DatabaseMigration._register_migrations] *)
Definition registered : list Migration :=
  [
    mkMigration 1 "Initial Schema"
      "Create initial database schema"
      "
                -- This migration is handled by SQLAlchemy create_all()
                -- No manual SQL needed for initial schema
                ";
    mkMigration 2 "Add Indexes"
      "Add performance indexes to frequently queried columns"
      "
                CREATE INDEX IF NOT EXISTS idx_users_email ON users(email);
                CREATE INDEX IF NOT EXISTS idx_users_role ON users(role);
                CREATE INDEX IF NOT EXISTS idx_users_created_at ON users(created_at);
                CREATE INDEX IF NOT EXISTS idx_events_start_date ON events(start_date);
                CREATE INDEX IF NOT EXISTS idx_events_category ON events(category);
                CREATE INDEX IF NOT EXISTS idx_bookings_status ON bookings(status);
                CREATE INDEX IF NOT EXISTS idx_messages_created_at ON messages(created_at);
                ";
    mkMigration 3 "Add Status to Events"
      "Add status column to events table"
      "
                ALTER TABLE events ADD COLUMN status VARCHAR(20) DEFAULT 'active';
                CREATE INDEX IF NOT EXISTS idx_events_status ON events(status);
                ";
    mkMigration 4 "Add Verification Fields"
      "Add verification and active status fields"
      "
                ALTER TABLE users ADD COLUMN is_verified BOOLEAN DEFAULT FALSE;
                ALTER TABLE users ADD COLUMN is_active BOOLEAN DEFAULT TRUE;
                ALTER TABLE ngos ADD COLUMN is_verified BOOLEAN DEFAULT FALSE;
                CREATE INDEX IF NOT EXISTS idx_users_verified ON users(is_verified);
                CREATE INDEX IF NOT EXISTS idx_users_active ON users(is_active);
                CREATE INDEX IF NOT EXISTS idx_ngos_verified ON ngos(is_verified);
                "
  ].

(** A row of the [migrations] table ([id] and [applied_at] are filled in
    by the database). *)
Record Row := mkRow {
  row_version : Z;
  row_name : string;
  row_description : string
}.

Definition row_of (m : Migration) : Row :=
  mkRow (version m) (name m) (description m).

(** The database as the runner sees it: the [migrations] table, if it
    exists, and the migration scripts executed and committed so far. *)
Record Store := mkStore {
  migrations_table : option (list Row);
  executed : list string
}.

Inductive Statement :=
| SelectMigrationsTable
| CreateMigrationsTable
| SelectMaxVersion
| ExecuteSql (text : string)
| InsertRow (r : Row)
| Commit.

(** What the runner prints.  The line that [apply_migration] has for a
    failed migration is not among them: see [apply_migration]. *)
Inductive Line :=
| ErrorGettingVersion (e : string)
| CurrentVersion (v : Z)
| UpToDate
| FoundPending (n : nat)
| Applying (v : Z) (migration_name : string)
| Applied (v : Z)
| MigrationFailed (e : string).

(** A text is the sequence of the bytes of its UTF-8 encoding. *)
Definition byte (c : Ascii.ascii) : Z := Z.of_N (Ascii.N_of_ascii c).

(** The white space of [str.isspace] below U+0080. *)
Definition is_space (c : Ascii.ascii) : bool :=
  bool_decide (9 ≤ byte c ≤ 13 ∨ 28 ≤ byte c ≤ 32).

(** U+0085 and U+00A0. *)
Definition is_space2 (c1 c2 : Ascii.ascii) : bool :=
  bool_decide (byte c1 = 194 ∧ (byte c2 = 133 ∨ byte c2 = 160)).

(** U+1680, U+2000 to U+200A, U+2028, U+2029, U+202F, U+205F and U+3000. *)
Definition is_space3 (c1 c2 c3 : Ascii.ascii) : bool :=
  bool_decide
    ((byte c1 = 225 ∧ byte c2 = 154 ∧ byte c3 = 128)
     ∨ (byte c1 = 226 ∧ byte c2 = 128
        ∧ (128 ≤ byte c3 ≤ 138 ∨ byte c3 = 168 ∨ byte c3 = 169
           ∨ byte c3 = 175))
     ∨ (byte c1 = 226 ∧ byte c2 = 129 ∧ byte c3 = 159)
     ∨ (byte c1 = 227 ∧ byte c2 = 128 ∧ byte c3 = 128)).

(** [str.strip()] leaves nothing of a text made of white space only. *)
Fixpoint blank (s : string) : bool :=
  match s with
  | EmptyString => true
  | String c1 s1 =>
      if is_space c1 then blank s1
      else
        match s1 with
        | EmptyString => false
        | String c2 s2 =>
            if is_space2 c1 c2 then blank s2
            else
              match s2 with
              | EmptyString => false
              | String c3 s3 => is_space3 c1 c2 c3 && blank s3
              end
        end
  end.

(** [SELECT MAX(version)], [None] for the SQL null of an empty table. *)
Definition max_version (rows : list Row) : option Z :=
  match rows with
  | [] => None
  | r :: rows' => Some (foldl (λ a r', a `max` row_version r')
                              (row_version r) rows')
  end.

(** [sorted(pending, key=lambda x: x['version'])]: a stable sort. *)
Fixpoint insert_by_version (m : Migration) (ms : list Migration)
    : list Migration :=
  match ms with
  | [] => [m]
  | x :: ms' =>
      if decide (version m ≤ version x) then m :: x :: ms'
      else x :: insert_by_version m ms'
  end.

Definition sorted_by_version (ms : list Migration) : list Migration :=
  foldr insert_by_version [] ms.

(** The first line of the text of the [RuntimeError] that [db.session]
    raises where no application context is active. *)
Definition outside_app_context : string :=
  "Working outside of application context.".

Section Runner.

(** Which statements raise in which state, and with what text. *)
Variable raises : Store → Statement → option string.

(** [self.migrations] *)
Variable migrations : list Migration.

(** [get_current_version]: creates the table when it is missing; every
    exception is printed and answered with version 0. *)
Definition get_current_version (st : Store) : Z * Store * list Line :=
  match raises st SelectMigrationsTable with
  | Some e => (0, st, [ErrorGettingVersion e])
  | None =>
      match migrations_table st with
      | None =>
          match raises st CreateMigrationsTable with
          | Some e => (0, st, [ErrorGettingVersion e])
          | None =>
              let st' := mkStore (Some []) (executed st) in
              match raises st' Commit with
              | Some e => (0, st, [ErrorGettingVersion e])
              | None => (0, st', [])
              end
          end
      | Some rows =>
          match raises st SelectMaxVersion with
          | Some e => (0, st, [ErrorGettingVersion e])
          | None =>
              match max_version rows with
              | Some v => (if decide (v = 0) then 0 else v, st, [])
              | None => (0, st, [])
              end
          end
      end
  end.

(** The statements of [apply_migration] inside its [try] block. *)
Definition apply_statements (st : Store) (m : Migration) : Try Store :=
  let run (st1 : Store) : Try Store :=
    attempt (raises st1 (InsertRow (row_of m)))
      match migrations_table st1 with
      | None => inl "no such table: migrations"
      | Some rows =>
          let st2 := mkStore (Some (rows ++ [row_of m])) (executed st1) in
          attempt (raises st2 Commit) (inr st2)
      end in
  if blank (sql m) then run st
  else
    attempt (raises st (ExecuteSql (sql m)))
      (run (mkStore (migrations_table st) (executed st ++ [sql m]))).

(** [apply_migration].  The [except] clause is entered after the
    application context of the [try] block is left, which discards what the
    session has not committed.  Its first statement, [db.session.rollback()],
    asks for the session outside of any application context and raises: the
    line of the failed migration is not printed, and what the caller catches
    is [outside_app_context], not the exception of the statement. *)
Definition apply_migration (st : Store) (m : Migration)
    : Try Store * list Line :=
  match apply_statements st m with
  | inr st' => (inr st', [Applying (version m) (name m);
                          Applied (version m)])
  | inl e => (inl outside_app_context, [Applying (version m) (name m)])
  end.

(** The loop of [run_migrations]: [break] at the first exception. *)
Fixpoint apply_in_order (st : Store) (ms : list Migration)
    : Store * list Line :=
  match ms with
  | [] => (st, [])
  | m :: ms' =>
      match apply_migration st m with
      | (inr st', out) =>
          let '(st'', out') := apply_in_order st' ms' in
          (st'', out ++ out')
      | (inl e, out) => (st, out ++ [MigrationFailed e])
      end
  end.

Definition pending (current_version : Z) : list Migration :=
  filter (λ m, current_version < version m) migrations.

Definition run_migrations (st : Store) : Store * list Line :=
  let '(current_version, st0, out0) := get_current_version st in
  let pending_migrations := pending current_version in
  match pending_migrations with
  | [] => (st0, out0 ++ [CurrentVersion current_version; UpToDate])
  | _ =>
      let '(st', out) :=
        apply_in_order st0 (sorted_by_version pending_migrations) in
      (st', out0 ++ [CurrentVersion current_version;
                     FoundPending (length pending_migrations)] ++ out)
  end.

(** A run of migrations one after the other, each of them committed. *)
Inductive applied_from : Store → list Migration → Store → Prop :=
| applied_none st : applied_from st [] st
| applied_next st m st' ms st'' :
    apply_statements st m = inr st' →
    applied_from st' ms st'' →
    applied_from st (m :: ms) st''.

End Runner.

Definition never_raises : Store → Statement → option string := λ _ _, None.

(** The versions of the migrations that a run started to apply, in the
    order of the lines it printed. *)
Definition attempted (out : list Line) : list Z :=
  omap (λ l, match l with Applying v _ => Some v | _ => None end) out.

Definition ascending : list Migration → Prop :=
  StronglySorted (λ a b, version a ≤ version b).

(** A fresh database: the [migrations] table does not exist yet. *)
Definition empty_store : Store := mkStore None [].

(** A database that refuses the script of the third registered migration,
    as one does on which the column is there already. *)
Definition refuses_third : Store → Statement → option string :=
  λ _ stmt,
    match stmt with
    | ExecuteSql text =>
        if bool_decide (Some text = sql <$> registered !! 2%nat)
        then Some "duplicate column name: status"
        else None
    | _ => None
    end.

End Migrations.

(** ** Uploaded files *)

Module Files.
Import EventAdmin.

(** File upload configuration. *)
Definition ALLOWED_EXTENSIONS : list string :=
  ["png"; "jpg"; "jpeg"; "gif"; "pdf"; "doc"; "docx"].

Definition MAX_FILE_SIZE : Z := 16 * 1024 * 1024.

(** [app.config['MAX_CONTENT_LENGTH']] *)
Definition MAX_CONTENT_LENGTH : Z := 16 * 1024 * 1024.

(** The text of the [RequestEntityTooLarge] of werkzeug. *)
Definition request_too_large : string :=
  "413 Request Entity Too Large: The data value transmitted exceeds the capacity limit.".

Definition UPLOAD_FOLDER : string := "static/uploads".

(** The character ['.']. *)
Definition dot : Ascii.ascii := Eval cbv in Ascii.ascii_of_N 46.

(** ['.' in filename] *)
Fixpoint has_dot (s : string) : bool :=
  match s with
  | EmptyString => false
  | String c s' => if decide (c = dot) then true else has_dot s'
  end.

(** The text before and the text after the last dot. *)
Fixpoint split_last_dot (s : string) : option (string * string) :=
  match s with
  | EmptyString => None
  | String c s' =>
      match split_last_dot s' with
      | Some (before, after) => Some (String c before, after)
      | None => if decide (c = dot) then Some (EmptyString, s') else None
      end
  end.

(** [filename.rsplit('.', 1)]: one part without a dot, two parts with. *)
Definition rsplit_dot (s : string) : list string :=
  match split_last_dot s with
  | Some (before, after) => [before; after]
  | None => [s]
  end.

(** [str.lower()] on the letters A to Z.  Text outside ASCII is left as it
    is; no such text lowers to one of the allowed extensions either. *)
Definition lower_char (c : Ascii.ascii) : Ascii.ascii :=
  let n := Ascii.N_of_ascii c in
  if bool_decide (65 ≤ n ≤ 90)%N then Ascii.ascii_of_N (n + 32) else c.

Fixpoint lower (s : string) : string :=
  match s with
  | EmptyString => EmptyString
  | String c s' => String (lower_char c) (lower s')
  end.

Definition allowed_file (filename : string) : bool :=
  has_dot filename &&
  match rsplit_dot filename !! 1%nat with
  | Some extension => bool_decide (lower extension ∈ ALLOWED_EXTENSIONS)
  | None => false
  end.

(** [request.files['file']]: the name sent by the client and the length
    that [file.tell()] reports at the end of the stream. *)
Record FileStorage := mkFileStorage {
  filename : string;
  file_length : Z
}.

(** The request: the length of its body, as its header declares it, and
    the entry of [request.files] under the key ['file']. *)
Record UploadRequest := mkUploadRequest {
  content_length : Z;
  files : option FileStorage
}.

(** The body of the request holds the file, and the multipart framing
    around it. *)
Definition holds_file (request : UploadRequest) : Prop :=
  ∀ file,
    files request = Some file → file_length file < content_length request.

Section Upload.

(** [werkzeug.utils.secure_filename], the formatted time of the request,
    and the exception that [file.save] raises for a path, if any. *)
Variable secure_filename : string → string.
Variable timestamp : string.
Variable save_raises : string → option string.

(** [os.path.join(UPLOAD_FOLDER, f"{timestamp}_{secure_filename(name)}")] *)
Definition upload_path (name : string) : string :=
  UPLOAD_FOLDER +:+ "/" +:+ timestamp +:+ "_" +:+ secure_filename name.

(** [upload_file]: [disk] is the list of the paths written so far.  The
    first access to [request.files] parses the body, which raises for a
    request longer than [MAX_CONTENT_LENGTH]; the [except] clause of the
    handler catches it. *)
Definition upload_file (request : UploadRequest) (disk : list string)
    : Outcome * list string :=
  if decide (MAX_CONTENT_LENGTH < content_length request) then
    (Flashed ("File upload failed: " +:+ request_too_large) "error", disk)
  else
    match files request with
    | None => (Flashed "No file selected" "error", disk)
    | Some file =>
        if decide (filename file = "") then
          (Flashed "No file selected" "error", disk)
        else if decide (MAX_FILE_SIZE < file_length file) then
          (Flashed "File too large. Maximum size is 16MB" "error", disk)
        else if allowed_file (filename file) then
          match save_raises (upload_path (filename file)) with
          | Some e => (Flashed ("File upload failed: " +:+ e) "error", disk)
          | None =>
              (Flashed "File uploaded successfully" "success",
               disk ++ [upload_path (filename file)])
          end
        else
          (Flashed
             "Invalid file type. Allowed: PNG, JPG, JPEG, GIF, PDF, DOC, DOCX"
             "error", disk)
    end.

End Upload.

End Files.

(** ** Pages and redirects *)

Module Pages.
Import Ledger.

(** What a page handler returns: a rendered template, a redirect to the
    endpoint that [url_for] names, or the status of an aborted request. *)
Inductive Reply :=
| Render (template : string)
| Redirect (endpoint : string)
| Abort (code : Z).

(** The messages flashed while the request is served, each with its
    category, and the reply. *)
Record Answer := mkAnswer {
  flashes : list (string * string);
  reply : Reply
}.

Definition index (db : DB) (current_user : User) : Answer :=
  mkAnswer [] (Render "index.html").

Definition dashboard (db : DB) (current_user : User) : Answer :=
  if decide (role current_user = "admin") then
    mkAnswer [] (Redirect "admin_dashboard")
  else if decide (role current_user = "ngo") then
    mkAnswer [] (Redirect "ngo_dashboard")
  else if decide (role current_user = "volunteer") then
    mkAnswer [] (Redirect "volunteer_dashboard")
  else if decide (role current_user = "donor") then
    mkAnswer [] (Redirect "donor_dashboard")
  else
    mkAnswer [("Unknown user role. Please contact support.", "error")]
             (Redirect "index").

Definition admin_dashboard (db : DB) (current_user : User) : Answer :=
  if decide (role current_user = "admin") then
    mkAnswer [] (Render "admin/dashboard.html")
  else
    mkAnswer [("Access denied. Admin privileges required.", "error")]
             (Redirect "dashboard").

Definition ngo_dashboard (db : DB) (current_user : User) : Answer :=
  if decide (role current_user = "ngo") then
    match ngo_of_user db (user_id current_user) with
    | Some ngo => mkAnswer [] (Render "ngo/dashboard.html")
    | None =>
        mkAnswer [("NGO profile not found.", "error")] (Redirect "dashboard")
    end
  else
    mkAnswer [("Access denied. NGO privileges required.", "error")]
             (Redirect "dashboard").

Definition volunteer_dashboard (db : DB) (current_user : User) : Answer :=
  if decide (role current_user = "volunteer") then
    match volunteer_of_user db (user_id current_user) with
    | Some volunteer => mkAnswer [] (Render "volunteer/dashboard.html")
    | None =>
        mkAnswer [("Volunteer profile not found.", "error")]
                 (Redirect "dashboard")
    end
  else
    mkAnswer [("Access denied. Volunteer privileges required.", "error")]
             (Redirect "dashboard").

Definition donor_dashboard (db : DB) (current_user : User) : Answer :=
  if decide (role current_user = "donor") then
    mkAnswer [] (Render "donor/dashboard.html")
  else mkAnswer [] (Redirect "dashboard").

Definition volunteer_achievements (db : DB) (current_user : User) : Answer :=
  if decide (role current_user = "volunteer") then
    match volunteer_of_user db (user_id current_user) with
    | Some volunteer => mkAnswer [] (Render "volunteer/achievements.html")
    | None =>
        mkAnswer [("Volunteer profile not found.", "error")]
                 (Redirect "dashboard")
    end
  else
    mkAnswer [("Access denied. Volunteer privileges required.", "error")]
             (Redirect "dashboard").

(** The handlers above by endpoint name. *)
Definition route (endpoint : string) : option (DB → User → Answer) :=
  if decide (endpoint = "index") then Some index
  else if decide (endpoint = "dashboard") then Some dashboard
  else if decide (endpoint = "admin_dashboard") then Some admin_dashboard
  else if decide (endpoint = "ngo_dashboard") then Some ngo_dashboard
  else if decide (endpoint = "volunteer_dashboard") then
    Some volunteer_dashboard
  else if decide (endpoint = "donor_dashboard") then Some donor_dashboard
  else if decide (endpoint = "volunteer_achievements") then
    Some volunteer_achievements
  else None.

(** A client that follows redirects: the template it ends on, if it gets to
    one within [hops] redirects. *)
Fixpoint follow (hops : nat) (db : DB) (current_user : User)
    (endpoint : string) : option string :=
  match route endpoint with
  | None => None
  | Some handler =>
      match reply (handler db current_user) with
      | Render template => Some template
      | Redirect endpoint' =>
          match hops with
          | O => None
          | S hops' => follow hops' db current_user endpoint'
          end
      | Abort _ => None
      end
  end.

(** A user whose role asks for a profile that is not there. *)
Definition profile_missing (db : DB) (current_user : User) : Prop :=
  (role current_user = "ngo"
   ∧ ngo_of_user db (user_id current_user) = None)
  ∨ (role current_user = "volunteer"
     ∧ volunteer_of_user db (user_id current_user) = None).

End Pages.

(** ** Accounts: registration and login *)

Module Accounts.
Import Ledger Pages.

(** A row of the users table. *)
Record Account := mkAccount {
  account_id : Z;
  email : string;
  password_hash : string;
  account_role : string
}.

Record Donor := mkDonor {
  donor_id : Z;
  donor_user_id : Z
}.

(** The tables that registration writes, with their auto-increment
    counters; volunteers and NGOs are those of the ledger. *)
Record Site := mkSite {
  accounts : list Account;
  donors : list Donor;
  ledger : DB;
  next_user_id : Z;
  next_ngo_id : Z;
  next_volunteer_id : Z;
  next_donor_id : Z
}.

(** The fields of the registration form that decide what is written. *)
Record RegisterForm := mkRegisterForm {
  form_email : string;
  form_password : string;
  form_role : string
}.

(** The session cookie: the counter of failed logins, if set, and the
    identifier of the logged-in user, if any. *)
Record Session := mkSession {
  failed_login_attempts : option Z;
  session_user_id : option Z
}.

(** [User.query.filter_by(email=e).first()] *)
Definition account_of_email (site : Site) (e : string) : option Account :=
  head (filter (λ a, email a = e) (accounts site)).

(** [load_user]: [User.query.get(int(user_id))] *)
Definition load_user (site : Site) (id : Z) : option User :=
  (λ a, mkUser (account_id a) (account_role a))
    <$> head (filter (λ a, account_id a = id) (accounts site)).

Definition current_user (site : Site) (session : Session) : option User :=
  id ← session_user_id session; load_user site id.

Definition add_volunteer (db : DB) (v : Volunteer) : DB :=
  mkDB (volunteers db ++ [v]) (ngos db) (events db) (time_slots db)
       (bookings db) (next_booking_id db).

Definition add_ngo (db : DB) (n : NGO) : DB :=
  mkDB (volunteers db) (ngos db ++ [n]) (events db) (time_slots db)
       (bookings db) (next_booking_id db).

Section Passwords.

(** The two functions of [werkzeug.security]. *)
Variable generate_password_hash : string → string.
Variable check_password_hash : string → string → bool.

(** [register]: [None] is a GET request, [Some form] a POST. *)
Definition register (site : Site) (request : option RegisterForm)
    : Answer * Site :=
  match request with
  | None => (mkAnswer [] (Render "register.html"), site)
  | Some form =>
      match account_of_email site (form_email form) with
      | Some _ =>
          (mkAnswer [("Email already registered", "message")]
                    (Redirect "register"), site)
      | None =>
          let user :=
            mkAccount (next_user_id site) (form_email form)
                      (generate_password_hash (form_password form))
                      (form_role form) in
          let site1 :=
            mkSite (accounts site ++ [user]) (donors site) (ledger site)
                   (next_user_id site + 1) (next_ngo_id site)
                   (next_volunteer_id site) (next_donor_id site) in
          let site2 :=
            if decide (form_role form = "ngo") then
              mkSite (accounts site1) (donors site1)
                (add_ngo (ledger site1)
                   (mkNGO (next_ngo_id site1) (account_id user)))
                (next_user_id site1) (next_ngo_id site1 + 1)
                (next_volunteer_id site1) (next_donor_id site1)
            else if decide (form_role form = "volunteer") then
              mkSite (accounts site1) (donors site1)
                (add_volunteer (ledger site1)
                   (mkVolunteer (next_volunteer_id site1) (account_id user)))
                (next_user_id site1) (next_ngo_id site1)
                (next_volunteer_id site1 + 1) (next_donor_id site1)
            else if decide (form_role form = "donor") then
              mkSite (accounts site1)
                (donors site1
                   ++ [mkDonor (next_donor_id site1) (account_id user)])
                (ledger site1)
                (next_user_id site1) (next_ngo_id site1)
                (next_volunteer_id site1) (next_donor_id site1 + 1)
            else site1 in
          (mkAnswer [("Registration successful! Please login.", "message")]
                    (Redirect "login"), site2)
      end
  end.

(** [login]: [None] is a GET request, [Some (email, password)] a POST. *)
Definition login (site : Site) (session : Session)
    (request : option (string * string)) : Answer * Session :=
  match request with
  | None => (mkAnswer [] (Render "login.html"), session)
  | Some (e, password) =>
      let failed_attempts := default 0 (failed_login_attempts session) in
      if decide (5 ≤ failed_attempts) then
        (mkAnswer
           [("Too many failed login attempts. Please try again later.",
             "error")]
           (Render "login.html"), session)
      else
        match account_of_email site e with
        | Some user =>
            if check_password_hash (password_hash user) password then
              (mkAnswer [] (Redirect "dashboard"),
               mkSession None (Some (account_id user)))
            else
              (mkAnswer [("Invalid email or password", "message")]
                        (Render "login.html"),
               mkSession (Some (failed_attempts + 1))
                         (session_user_id session))
        | None =>
            (mkAnswer [("Invalid email or password", "message")]
                      (Render "login.html"),
             mkSession (Some (failed_attempts + 1))
                       (session_user_id session))
        end
  end.

(** A browser that posts one login form after the other. *)
Definition login_all (site : Site)
    : Session → list (string * string) → Session :=
  foldl (λ session credentials, (login site session (Some credentials)).2).

(** Credentials that the login refuses. *)
Definition refused (site : Site) (credentials : string * string) : Prop :=
  match account_of_email site credentials.1 with
  | Some user => check_password_hash (password_hash user) credentials.2 = false
  | None => True
  end.

End Passwords.

(** [logout]: the counter of failed logins stays in the cookie. *)
Definition logout (session : Session) : Answer * Session :=
  (mkAnswer [] (Redirect "index"),
   mkSession (failed_login_attempts session) None).

(** Identifiers handed out so far lie below the counter of their table. *)
Definition ids_below_counters (site : Site) : Prop :=
  Forall (λ a, account_id a < next_user_id site) (accounts site)
  ∧ Forall (λ v, volunteer_id v < next_volunteer_id site)
           (volunteers (ledger site))
  ∧ Forall (λ v, volunteer_user_id v < next_user_id site)
           (volunteers (ledger site))
  ∧ Forall (λ n, ngo_user_id n < next_user_id site) (ngos (ledger site)).

Definition emails_unique (site : Site) : Prop :=
  NoDup (email <$> accounts site).

(** A site over the sample ledger, and a toy pair of password functions. *)
Definition sample_site : Site :=
  mkSite [mkAccount 1 "alice@example.org" "hash:alice-pw" "volunteer";
          mkAccount 2 "bob@example.org" "hash:bob-pw" "volunteer";
          mkAccount 9 "owner@example.org" "hash:owner-pw" "ngo"]
         [] (Sample.fresh 2) 10 6 104 1.

Definition sample_hash (p : string) : string := "hash:" +:+ p.

Definition sample_check (h p : string) : bool :=
  bool_decide (h = "hash:" +:+ p).

End Accounts.

(** ** Creating and editing events *)

Module EventForms.
Import Ledger Http Storage BookSlot EventAdmin Pages.

(** The fields of the event form.  [None] stands for a field that the
    handler cannot read: a missing key or, for the dates and the number, a
    text that [strptime] or [int] refuses.  A date is the number of its day,
    counted as [date.toordinal] does, a time the number of hours since the
    start of day 0. *)
Record EventForm := mkEventForm {
  form_title : option string;
  form_description : option string;
  form_location : option string;
  form_start_date : option Z;
  form_end_date : option Z;
  form_category : option string;
  form_max_volunteers : option Z
}.

Record EventData := mkEventData {
  data_start_date : Z;
  data_end_date : Z;
  data_max_volunteers : Z
}.

(** The ledger with the auto-increment counters of events and slots and
    with the start and end time of every slot. *)
Record Calendar := mkCalendar {
  cal_db : DB;
  next_event_id : Z;
  next_slot_id : Z;
  slot_times : gmap Z (Z * Z)
}.

Definition with_db (cal : Calendar) (db : DB) : Calendar :=
  mkCalendar db (next_event_id cal) (next_slot_id cal) (slot_times cal).

(** The NGO user that owns an event. *)
Definition owns (db : DB) (u : User) (event_id : Z) (event : Event) : Prop :=
  role u = "ngo"
  ∧ ∃ ngo,
      ngo_of_user db (user_id u) = Some ngo
      ∧ events db !! event_id = Some event
      ∧ event_ngo_id event = ngo_id ngo.

(** The two commits of [ngo_create_event]. *)
Inductive CreateCommit :=
| CommitEvent
| CommitSlots.

(** The days that [datetime] has: 0001-01-01 to 9999-12-31. *)
Definition date_min : Z := 1.
Definition date_max : Z := 3652059.

(** What [strptime] makes of a date field: a day that [datetime] has. *)
Definition strptime (value : option Z) : option Z :=
  match value with
  | Some day => if decide (date_min ≤ day ≤ date_max) then Some day else None
  | None => None
  end.

(** The text of the [OverflowError] of [datetime]. *)
Definition date_out_of_range : string := "date value out of range".

(** [current_date += timedelta(days=1)] *)
Definition next_day (current_date : Z) : Try Z :=
  if decide (current_date < date_max) then inr (current_date + 1)
  else inl date_out_of_range.

(** [range(9, 17, 2)] *)
Definition slot_hours : list Z := [9; 11; 13; 15].

(** The loop [while current_date <= end_date], for the [days] days that are
    left up to [end_date]: the start times of the slots, in the order in
    which they are added to the session. *)
Fixpoint slot_loop (days : nat) (current_date : Z) : Try (list Z) :=
  match days with
  | O => inr []
  | S days' =>
      let starts := (λ hour, 24 * current_date + hour) <$> slot_hours in
      match next_day current_date with
      | inl e => inl e
      | inr tomorrow =>
          match slot_loop days' tomorrow with
          | inl e => inl e
          | inr later => inr (starts ++ later)
          end
      end
  end.

(** The days from [start_date] to [end_date]. *)
Definition event_days (start_date end_date : Z) : list Z :=
  (λ i, start_date + Z.of_nat i)
    <$> seq 0 (Z.to_nat (end_date - start_date + 1)).

(** The start times that the loop gives when it goes through. *)
Definition slot_starts (start_date end_date : Z) : list Z :=
  day ← event_days start_date end_date;
  (λ hour, 24 * day + hour) <$> slot_hours.

(** The rows added for an event: identifier, slot, start and end time. *)
Definition slot_rows (first_id event_id max : Z) (starts : list Z)
    : list (Z * (TimeSlot * (Z * Z))) :=
  imap (λ i start_time,
          (first_id + Z.of_nat i,
           (mkTimeSlot event_id max 0 true, (start_time, start_time + 2))))
       starts.

Section Forms.

(** The text of the exception raised for a field that cannot be read, and
    the exceptions of the commits. *)
Variable error_text : string → string.
Variable commit_raises : CreateCommit → option string.
Variable fault : StorageOp → option string.

Definition field {A} (name : string) (value : option A) : Try A :=
  match value with
  | Some a => inr a
  | None => inl (error_text name)
  end.

(** The form is read field by field, in the order of the source. *)
Definition read_form (form : EventForm) : Try EventData :=
  match field "title" (form_title form) with
  | inl e => inl e
  | inr _ =>
  match field "description" (form_description form) with
  | inl e => inl e
  | inr _ =>
  match field "location" (form_location form) with
  | inl e => inl e
  | inr _ =>
  match field "start_date" (strptime (form_start_date form)) with
  | inl e => inl e
  | inr start_date =>
  match field "end_date" (strptime (form_end_date form)) with
  | inl e => inl e
  | inr end_date =>
  match field "category" (form_category form) with
  | inl e => inl e
  | inr _ =>
  match field "max_volunteers" (form_max_volunteers form) with
  | inl e => inl e
  | inr max => inr (mkEventData start_date end_date max)
  end end end end end end end.

(** A POST of a readable form by an NGO user with a profile. *)
Definition posted (cal : Calendar) (u : User) (ngo : NGO) (form : EventForm)
    (data : EventData) : Prop :=
  role u = "ngo"
  ∧ ngo_of_user (cal_db cal) (user_id u) = Some ngo
  ∧ read_form form = inr data.

(** The writes of [ngo_create_event] up to its first commit. *)
Definition add_event (cal : Calendar) (ngo : NGO) (data : EventData)
    : Calendar :=
  mkCalendar
    (set_events (cal_db cal)
       (<[next_event_id cal :=
            mkEvent (ngo_id ngo) (data_max_volunteers data) true]>
          (events (cal_db cal))))
    (next_event_id cal + 1) (next_slot_id cal) (slot_times cal).

(** The writes between the first commit and the second, for the start
    times that the loop has gone through. *)
Definition add_slots (cal : Calendar) (event_id max : Z) (starts : list Z)
    : Calendar :=
  let rows := slot_rows (next_slot_id cal) event_id max starts in
  let db := cal_db cal in
  mkCalendar
    (mkDB (volunteers db) (ngos db) (events db)
          (list_to_map ((λ row, (row.1, row.2.1)) <$> rows) ∪ time_slots db)
          (bookings db) (next_booking_id db))
    (next_event_id cal)
    (next_slot_id cal + Z.of_nat (length rows))
    (list_to_map ((λ row, (row.1, row.2.2)) <$> rows) ∪ slot_times cal).

(** [ngo_create_event]: [None] is a GET request, [Some form] a POST. *)
Definition ngo_create_event (cal : Calendar) (current_user : User)
    (request : option EventForm) : Answer * Calendar :=
  if decide (role current_user = "ngo") then
    match ngo_of_user (cal_db cal) (user_id current_user) with
    | None =>
        (mkAnswer [("NGO profile not found.", "error")]
                  (Redirect "dashboard"), cal)
    | Some ngo =>
        match request with
        | None => (mkAnswer [] (Render "ngo/create_event.html"), cal)
        | Some form =>
            let failed (e : string) (cal' : Calendar) :=
              (mkAnswer [("Error creating event: " +:+ e, "error")]
                        (Render "ngo/create_event.html"), cal') in
            match read_form form with
            | inl e => failed e cal
            | inr data =>
                match commit_raises CommitEvent with
                | Some e => failed e cal
                | None =>
                    let cal1 := add_event cal ngo data in
                    let days :=
                      Z.to_nat (data_end_date data
                                - data_start_date data + 1) in
                    match slot_loop days (data_start_date data) with
                    | inl e => failed e cal1
                    | inr starts =>
                        match commit_raises CommitSlots with
                        | Some e => failed e cal1
                        | None =>
                            (mkAnswer
                               [("Event created successfully!", "success")]
                               (Redirect "ngo_events"),
                             add_slots cal1 (next_event_id cal)
                               (data_max_volunteers data) starts)
                        end
                    end
                end
            end
        end
    end
  else
    (mkAnswer [("Access denied. NGO access required.", "error")]
              (Redirect "dashboard"), cal).

(** The reply of an NGO handler to a request that its guards stop. *)
Definition stopped (out : Outcome) : Answer :=
  match out with
  | Aborted code => mkAnswer [] (Abort code)
  | Flashed msg category =>
      mkAnswer [(msg, category)]
        (Redirect
           (if decide (msg = "Access denied. You can only edit your own events.")
            then "ngo_events" else "dashboard"))
  end.

(** [ngo_edit_event]: [None] is a GET request, [Some form] a POST. *)
Definition ngo_edit_event (db : DB) (current_user : User) (event_id : Z)
    (request : option EventForm) : Answer * DB :=
  match owned_event db current_user event_id
          "Access denied. You can only edit your own events." with
  | inl out => (stopped out, db)
  | inr event =>
      match request with
      | None => (mkAnswer [] (Render "ngo/edit_event.html"), db)
      | Some form =>
          let failed (e : string) :=
            (mkAnswer [("Error updating event: " +:+ e, "error")]
                      (Render "ngo/edit_event.html"), db) in
          match read_form form with
          | inl e => failed e
          | inr data =>
              match fault OpCommit with
              | Some e => failed e
              | None =>
                  (mkAnswer [("Event updated successfully!", "success")]
                            (Redirect "ngo_view_event"),
                   set_events db
                     (<[event_id :=
                          mkEvent (event_ngo_id event)
                                  (data_max_volunteers data)
                                  (is_active event)]> (events db)))
              end
          end
      end
  end.

End Forms.

(** No slot and no booking has a slot identifier that the counter has not
    handed out yet. *)
Definition slot_ids_fresh (cal : Calendar) : Prop :=
  (∀ k, next_slot_id cal ≤ k →
        time_slots (cal_db cal) !! k = None ∧ slot_times cal !! k = None)
  ∧ Forall (λ b, time_slot_id b < next_slot_id cal) (bookings (cal_db cal)).

(** The number of days from [start_date] to [end_date], both included. *)
Definition day_count (data : EventData) : Z :=
  Z.max 0 (data_end_date data - data_start_date data + 1).

(** A slot that is offered has a place left. *)
Definition open_slots_have_room (db : DB) : Prop :=
  ∀ s slot,
    time_slots db !! s = Some slot →
    is_available slot = true →
    current_volunteers slot < max_volunteers slot.

(** The requests that the handlers of the source serve. *)
Inductive Request :=
| BookSlot (current_user : User) (data : BookRequest)
| DeleteEvent (current_user : User) (event_id : Z)
| ToggleEvent (current_user : User) (event_id : Z)
| EditEvent (current_user : User) (event_id : Z) (form : EventForm)
| CreateEvent (current_user : User) (form : EventForm).

Section Serving.

Variable error_text : string → string.
Variable commit_raises : CreateCommit → option string.
Variable fault : StorageOp → option string.

Definition serve (cal : Calendar) (request : Request) : Calendar :=
  match request with
  | BookSlot u data => with_db cal (book_slot fault (cal_db cal) u data).2
  | DeleteEvent u e => with_db cal (ngo_delete_event fault (cal_db cal) u e).2
  | ToggleEvent u e =>
      with_db cal (ngo_toggle_event_status fault (cal_db cal) u e).2
  | EditEvent u e form =>
      with_db cal
        (ngo_edit_event error_text fault (cal_db cal) u e (Some form)).2
  | CreateEvent u form =>
      (ngo_create_event error_text commit_raises cal u (Some form)).2
  end.

Definition serve_all : Calendar → list Request → Calendar := foldl serve.

End Serving.

(** No claimant holds two bookings on one slot. *)
Definition one_booking_per_claimant (db : DB) : Prop :=
  ∀ v s, (length (bookings_of db v s) ≤ 1)%nat.

(** A slot as it may have become: the same event and capacity, a counter
    that is not lower, and open only if it was open. *)
Definition grown (slot slot' : TimeSlot) : Prop :=
  slot_event_id slot' = slot_event_id slot
  ∧ max_volunteers slot' = max_volunteers slot
  ∧ current_volunteers slot ≤ current_volunteers slot'
  ∧ (is_available slot' = true → is_available slot = true).

(** A request that, if it creates an event, gives it at least one place. *)
Definition has_capacity (request : Request) : Prop :=
  match request with
  | CreateEvent _ form => ∀ max, form_max_volunteers form = Some max → 1 ≤ max
  | _ => True
  end.

(** Sample data: the sample ledger with its counters, and a one-day form. *)
Definition sample_calendar : Calendar :=
  mkCalendar (Sample.fresh 2) 3 21 ∅.

Definition sample_form (start_date end_date max : Z) : EventForm :=
  mkEventForm (Some "Cleanup") (Some "Park cleanup") (Some "Central Park")
              (Some start_date) (Some end_date) (Some "Community Service")
              (Some max).

Definition no_error_text : string → string := λ name, name.

Definition commits : CreateCommit → option string := λ _, None.

Definition second_commit_fails : CreateCommit → option string :=
  λ c, match c with CommitEvent => None | CommitSlots => Some "gone away" end.

End EventForms.

(** ** The other commands of the migration tool *)

Module MigrationTools.
Import Storage Migrations.

(** What [show_migrations] prints after the header. *)
Inductive StatusLine :=
| StatusRow (v : Z) (applied : bool) (migration_name : string)
| StatusCurrent (v : Z)
| StatusLatest (v : Z).

(** [max(m['version'] for m in self.migrations)], [None] for the
    [ValueError] of an empty list. *)
Definition latest_version (ms : list Migration) : option Z :=
  match ms with
  | [] => None
  | m :: ms' => Some (foldl (λ a m', a `max` version m') (version m) ms')
  end.

(** The steps of [reset_database] that may raise. *)
Inductive ResetStep :=
| DropAll
| CreateAll
| DeleteRows
| CommitReset.

Inductive ResetLine :=
| ResetCancelled
| ResetDone
| ResetError (e : string).

(** The version that the rows of the table stand for. *)
Definition current_of (rows : list Row) : Z :=
  match max_version rows with
  | Some v => v
  | None => 0
  end.

(** A database on which no statement raises. *)
Definition never (raises : Store → Statement → option string) : Prop :=
  ∀ st stmt, raises st stmt = None.

(** A database on which nothing raises but, possibly, the first query of
    [get_current_version]. *)
Definition undisturbed (raises : Store → Statement → option string) : Prop :=
  ∀ st stmt, stmt ≠ SelectMigrationsTable → raises st stmt = None.

Section Tools.

Variable raises : Store → Statement → option string.
Variable migrations : list Migration.

(** [show_migrations]: the lines of [get_current_version], the status
    lines, and whether the last line could be printed; the store, because
    [get_current_version] may create the table. *)
Definition show_migrations (st : Store)
    : list Line * list StatusLine * bool * Store :=
  let '(current_version, st0, out0) := get_current_version raises st in
  let rows :=
    (λ m, StatusRow (version m)
            (bool_decide (version m ≤ current_version)) (name m))
      <$> migrations in
  match latest_version migrations with
  | Some latest =>
      (out0, rows ++ [StatusCurrent current_version; StatusLatest latest],
       true, st0)
  | None => (out0, rows ++ [StatusCurrent current_version], false, st0)
  end.

(** [reset_database]: [confirm] is the line read from the terminal.  The
    tables that [drop_all] and [create_all] handle are those of the models;
    the [migrations] table is not one of them. *)
Definition reset_database (reset_raises : ResetStep → option string)
    (confirm : string) (st : Store) : Store * list ResetLine :=
  if decide (Files.lower confirm = "yes") then
    match reset_raises DropAll with
    | Some e => (st, [ResetError e])
    | None =>
    match reset_raises CreateAll with
    | Some e => (st, [ResetError e])
    | None =>
    match reset_raises DeleteRows with
    | Some e => (st, [ResetError e])
    | None =>
    match migrations_table st with
    | None => (st, [ResetError "no such table: migrations"])
    | Some _ =>
    match reset_raises CommitReset with
    | Some e => (st, [ResetError e])
    | None => (mkStore (Some []) (executed st), [ResetDone])
    end end end end end
  else (st, [ResetCancelled]).

End Tools.

(** A database on which the first query of the version fails. *)
Definition version_query_fails : Store → Statement → option string :=
  λ _ stmt,
    match stmt with
    | SelectMigrationsTable => Some "database is locked"
    | _ => None
    end.

Definition resets : ResetStep → option string := λ _, None.

End MigrationTools.

(** * Properties *)

(** ** The booking handler, one call at a time *)

Module BookSlotFacts.
Import Ledger Http Storage BookSlot.

Lemma quiet_no_fault : quiet no_fault.
Proof. by intros op. Qed.

Lemma booking_failed_not_booked e : booking_failed e ≠ booked.
Proof. intros [=]. Qed.

Lemma booking_failed_not_already_booked e : booking_failed e ≠ already_booked.
Proof. intros [=]. Qed.

Lemma booking_failed_not_slot_is_full e : booking_failed e ≠ slot_is_full.
Proof. intros [=]. Qed.

Lemma booking_failed_not_slot_not_available e :
  booking_failed e ≠ slot_not_available.
Proof. intros [=]. Qed.

Section OneCall.

Context (fault : StorageOp → option string).

(** The checks leave a session that has a transaction, whatever session
    they start on. *)
Lemma book_slot_checks_begin_transaction session db u data v s e session' :
  book_slot_checks fault session db u data = inr (inr (v, s, e, session')) →
  session' = InTransaction.
Proof.
  unfold book_slot_checks, attempt. intros Hchecks.
  repeat (case_match; simplify_eq); done.
Qed.

(** On such a session [begin] raises: the body of the [with] block is not
    entered. *)
Lemma book_slot_transaction_raises db v s e :
  book_slot_transaction fault InTransaction db v s e = inl already_begun.
Proof. done. Qed.

(** The handler is its checks: a call that passes them is answered with
    the exception of [begin]. *)
Lemma book_slot_answer db u data :
  book_slot fault db u data =
    (if decide (role u = "volunteer") then
       match book_slot_checks fault request_session db u data with
       | inl e => booking_failed e
       | inr (inl response) => response
       | inr (inr _) => booking_failed already_begun
       end
     else error "Only volunteers can book slots" 403, db).
Proof.
  unfold book_slot, book_slot_try. case_decide; [|done].
  destruct (book_slot_checks fault request_session db u data)
    as [e|[response|[[[v s] ev] session']]] eqn:Hchecks; try done.
  apply book_slot_checks_begin_transaction in Hchecks as ->.
  by rewrite book_slot_transaction_raises.
Qed.

(** No call writes. *)
Lemma book_slot_keeps_db db u data : (book_slot fault db u data).2 = db.
Proof. by rewrite book_slot_answer. Qed.

(** No call is answered with success, and none with an answer of the body
    of the [with] block. *)
Lemma book_slot_never_enters_block db u data :
  (book_slot fault db u data).1
    ∉ [booked; slot_not_available; slot_is_full].
Proof.
  assert (∀ r, r ≠ booked → r ≠ slot_not_available → r ≠ slot_is_full →
               r ∉ [booked; slot_not_available; slot_is_full]) as Houtside.
  { intros r ???. rewrite !not_elem_of_cons. repeat split; try done.
    apply not_elem_of_nil. }
  rewrite book_slot_answer. cbn [fst].
  case_decide; [|by apply Houtside].
  unfold book_slot_checks, attempt.
  destruct (truthy (req_slot_id data)), (truthy (req_event_id data));
    try (by apply Houtside).
  destruct (fault OpQueryVolunteer); [by apply Houtside|].
  destruct (volunteer_of_user db (user_id u)); [|by apply Houtside].
  destruct (fault OpQueryBooking); [by apply Houtside|].
  destruct (head _); by apply Houtside.
Qed.

Lemma book_slot_not_booked db u data :
  (book_slot fault db u data).1 ≠ booked.
Proof.
  intros Hbooked.
  apply (book_slot_never_enters_block db u data). rewrite Hbooked. by left.
Qed.

(** The handler, for an eligible call on a database that does not
    raise. *)
Lemma book_slot_eligible db u data v s e :
  quiet fault → eligible db u data v s e →
  book_slot fault db u data =
    (match head (bookings_of db (volunteer_id v) s) with
     | Some _ => already_booked
     | None => booking_failed already_begun
     end, db).
Proof.
  intros Hq (Hrole & Hs & He & Hv).
  rewrite book_slot_answer, decide_True by done.
  unfold book_slot_checks. rewrite Hs, He, Hv, !Hq. simpl.
  by destruct (head _).
Qed.

(** A call that is not answered with success leaves the committed state
    as it was, whatever the database does. *)
Lemma book_slot_rejection_keeps_db db u data :
  (book_slot fault db u data).1 ≠ booked →
  (book_slot fault db u data).2 = db.
Proof. intros _. apply book_slot_keeps_db. Qed.

(** What the answer depends on: the request, the volunteers and the
    bookings. *)
Lemma book_slot_reads_volunteers_and_bookings db1 db2 u data :
  volunteers db1 = volunteers db2 → bookings db1 = bookings db2 →
  (book_slot fault db1 u data).1 = (book_slot fault db2 u data).1.
Proof.
  intros Hvolunteers Hbookings. rewrite !book_slot_answer. cbn [fst].
  unfold book_slot_checks, volunteer_of_user, bookings_of.
  by rewrite Hvolunteers, Hbookings.
Qed.

(** The handler never reads the events table. *)
Lemma book_slot_ignores_events db u data es :
  book_slot fault (set_events db es) u data =
    ((book_slot fault db u data).1,
     set_events (book_slot fault db u data).2 es).
Proof.
  rewrite (book_slot_keeps_db db).
  rewrite <- (book_slot_keeps_db (set_events db es) u data) at 2.
  rewrite <- (book_slot_reads_volunteers_and_bookings
                (set_events db es) db u data) by done.
  by destruct (book_slot fault (set_events db es) u data).
Qed.

(** The body of the [with] block, as a call would meet it on a session
    without a transaction: the flag of the slot is tested before its
    counter, so that a closed slot is answered "Slot not available"
    whatever its counter. *)
Lemma block_tests_flag_before_counter db v s e slot :
  quiet fault →
  time_slots db !! s = Some slot → is_available slot = false →
  book_slot_transaction fault NoTransaction db v s e
    = inr (slot_not_available, db).
Proof.
  intros Hq Hslot Hclosed. unfold book_slot_transaction. simpl.
  by rewrite !Hq, Hslot, Hclosed.
Qed.

(** The booking that takes the last place closes the slot. *)
Lemma reserve_unit_closes_full_slot db v s e slot :
  max_volunteers slot ≤ current_volunteers slot + 1 →
  is_available <$> time_slots (reserve_unit db v s e slot) !! s = Some false.
Proof.
  intros Hlast. simpl. rewrite lookup_insert_eq. simpl.
  by rewrite decide_True.
Qed.

End OneCall.

End BookSlotFacts.

Module BookSlotClaims.
Import Ledger Http Storage BookSlot EventAdmin Sample BookSlotFacts.

(** C3, as the handler behaves.  A call on a slot that is open, by a
    claimant with no booking on it and on a database that does not raise,
    is not booked, whether the slot has room or not.  The two queries of
    the checks have begun a transaction on the session, so that
    [db.session.begin()] raises: the call is answered with status 500,
    which is neither success nor "Slot is full", no booking is inserted and
    the counter and the flag of the slot stay as they are. *)
Theorem book_on_open_slot_fails_at_begin fault db u data v s e slot :
  quiet fault → eligible db u data v s e →
  bookings_of db (volunteer_id v) s = [] →
  time_slots db !! s = Some slot →
  is_available slot = true →
  book_slot fault db u data = (booking_failed already_begun, db)
  ∧ booking_failed already_begun ≠ booked
  ∧ booking_failed already_begun ≠ slot_is_full
  ∧ time_slots (book_slot fault db u data).2 !! s = Some slot
  ∧ bookings (book_slot fault db u data).2 = bookings db.
Proof.
  intros Hq Hel Hnone Hslot Hopen.
  rewrite (book_slot_eligible fault db u data v s e Hq Hel), Hnone.
  split; [done|]. split; [apply booking_failed_not_booked|].
  split; [apply booking_failed_not_slot_is_full|done].
Qed.

(** Alice asks for the one place of slot 10, which nobody has taken. *)
Lemma book_on_open_slot_fails_at_begin_witness :
  book_slot no_fault (fresh 1) alice (ask 10 1)
    = (error
         "Booking failed: A transaction is already begun on this Session."
         500,
       fresh 1)
  ∧ time_slots (book_slot no_fault (fresh 1) alice (ask 10 1)).2 !! 10
    = Some (mkTimeSlot 1 1 0 true)
  ∧ bookings (book_slot no_fault (fresh 1) alice (ask 10 1)).2 = [].
Proof.
  destruct (book_on_open_slot_fails_at_begin no_fault (fresh 1) alice
              (ask 10 1) (mkVolunteer 101 1) 10 1 (mkTimeSlot 1 1 0 true))
    as (Hcall & _ & _ & Hslot & Hbookings).
  - intros op. reflexivity.
  - repeat split; reflexivity.
  - reflexivity.
  - reflexivity.
  - reflexivity.
  - split; [exact Hcall|]. split; [exact Hslot|exact Hbookings].
Defined.

(** C5, as stated, fails: Alice's only booking on slot 10 is cancelled and
    the slot has room, yet their call is answered "already booked". *)
Lemma cancelled_booking_still_duplicate :
  ¬ duplicate_rule (λ b, status b ≠ "cancelled") no_fault
      after_cancellation alice (ask 10 1) (mkVolunteer 101 1) 10.
Proof.
  intros [Hdup _].
  destruct Hdup as (b & Hin & _ & _ & Hstatus); [reflexivity|].
  apply list_elem_of_singleton in Hin. subst b. by apply Hstatus.
Qed.

(** C5, amended. An eligible call is answered "already booked" if and
    only if the claimant has a booking on the slot, whatever its status:
    a claimant whose booking was cancelled is still turned away. *)
Theorem duplicate_iff_any_booking fault db u data v s e :
  quiet fault → eligible db u data v s e →
  duplicate_rule (λ _, True) fault db u data v s.
Proof.
  intros Hq Hel. unfold duplicate_rule.
  rewrite (book_slot_eligible fault db u data v s e Hq Hel).
  destruct (head (bookings_of db (volunteer_id v) s)) as [b|] eqn:Hhead.
  - split; [intros _|done].
    apply head_Some_elem_of in Hhead.
    apply list_elem_of_filter in Hhead as [[Hv Hs] Hin]. eauto.
  - split.
    + intros Hresp. by apply booking_failed_not_already_booked in Hresp.
    + intros (b & Hin & Hv & Hs & _). exfalso.
      apply head_None in Hhead.
      assert (b ∈ bookings_of db (volunteer_id v) s) as Hb
        by (apply list_elem_of_filter; done).
      rewrite Hhead in Hb. by apply not_elem_of_nil in Hb.
Qed.

Lemma duplicate_iff_any_booking_witness :
  duplicate_rule (λ _, True) no_fault after_cancellation alice (ask 10 1)
    (mkVolunteer 101 1) 10.
Proof.
  apply (duplicate_iff_any_booking no_fault after_cancellation alice
           (ask 10 1) (mkVolunteer 101 1) 10 1).
  - intros op. reflexivity.
  - repeat split; reflexivity.
Defined.

(** C6. A call that is answered with anything but success (a rejection,
    or the 500 of a storage exception, which rolls the session back)
    leaves the whole committed state, and so the slot's counter, its
    availability flag and the bookings, as they were. *)
Theorem rejected_call_leaves_no_trace fault db u data response db' :
  book_slot fault db u data = (response, db') →
  response ≠ booked →
  db' = db
  ∧ time_slots db' = time_slots db
  ∧ bookings db' = bookings db.
Proof.
  intros Hcall Hrej.
  assert (db' = db) as ->; [|done].
  pose proof (book_slot_rejection_keeps_db fault db u data) as Hkeep.
  rewrite Hcall in Hkeep. by apply Hkeep.
Qed.

(** A duplicate, a connection that is lost while the bookings are
    queried, and the exception of [begin]. *)
Lemma rejected_call_leaves_no_trace_witness :
  (book_slot no_fault slot_taken alice (ask 10 1)).2 = slot_taken
  ∧ (book_slot query_fails (fresh 1) alice (ask 10 1)).2 = fresh 1
  ∧ (book_slot no_fault (fresh 1) alice (ask 10 1)).2 = fresh 1.
Proof.
  split; [|split].
  - apply (rejected_call_leaves_no_trace no_fault slot_taken alice
             (ask 10 1) already_booked).
    + reflexivity.
    + discriminate.
  - apply (rejected_call_leaves_no_trace query_fails (fresh 1) alice
             (ask 10 1) (booking_failed "connection lost")).
    + reflexivity.
    + discriminate.
  - apply (rejected_call_leaves_no_trace no_fault (fresh 1) alice
             (ask 10 1) (booking_failed already_begun)).
    + reflexivity.
    + discriminate.
Defined.

(** C8, as stated, fails: with slot 10 closed and no slot 77, Bob's call
    for slot 77 gets the very response of their call for slot 10. *)
Lemma unknown_slot_answered_like_closed_slot :
  ¬ unknown_slot_is_distinct no_fault.
Proof.
  intros Hdistinct.
  apply (Hdistinct slot_taken bob (ask 77 1) (mkVolunteer 102 2) 77 1
           bob (ask 10 1) (mkVolunteer 102 2) 10 1
           (mkTimeSlot 1 1 1 false));
    try reflexivity; repeat split; reflexivity.
Qed.

(** C8, amended. An eligible call by a claimant with no booking under the
    named identifier, for an identifier that matches no slot, is turned
    away and writes nothing, whatever the database does; and it has no
    answer of its own: on a database that does not raise it gets the very
    answer that an eligible call by a claimant with no booking on it gets
    for a slot that exists and is closed. *)
Theorem unknown_slot_answered_as_closed_slot fault db u data v s e :
  eligible db u data v s e →
  bookings_of db (volunteer_id v) s = [] →
  time_slots db !! s = None →
  (book_slot fault db u data).1 ≠ booked
  ∧ (book_slot fault db u data).2 = db
  ∧ (quiet fault →
     ∀ u' data' v' s' e' slot',
       eligible db u' data' v' s' e' →
       bookings_of db (volunteer_id v') s' = [] →
       time_slots db !! s' = Some slot' →
       is_available slot' = false →
       (book_slot fault db u' data').1 = (book_slot fault db u data).1).
Proof.
  intros Hel Hnone Hslot.
  split; [apply book_slot_not_booked|].
  split; [apply book_slot_keeps_db|].
  intros Hq u' data' v' s' e' slot' Hel' Hnone' _ _.
  rewrite (book_slot_eligible fault db u data v s e Hq Hel).
  rewrite (book_slot_eligible fault db u' data' v' s' e' Hq Hel').
  by rewrite Hnone, Hnone'.
Qed.

Lemma unknown_slot_answered_as_closed_slot_witness :
  (book_slot no_fault slot_taken bob (ask 77 1)).1 ≠ booked
  ∧ (book_slot no_fault slot_taken bob (ask 77 1)).2 = slot_taken
  ∧ (book_slot no_fault slot_taken bob (ask 10 1)).1
    = (book_slot no_fault slot_taken bob (ask 77 1)).1.
Proof.
  destruct (unknown_slot_answered_as_closed_slot no_fault slot_taken bob
              (ask 77 1) (mkVolunteer 102 2) 77 1)
    as (Hrejected & Hkept & Hsame).
  - repeat split; reflexivity.
  - reflexivity.
  - reflexivity.
  - split; [exact Hrejected|]. split; [exact Hkept|].
    apply (Hsame (λ op, eq_refl) bob (ask 10 1) (mkVolunteer 102 2) 10 1
             (mkTimeSlot 1 1 1 false)).
    + repeat split; reflexivity.
    + reflexivity.
    + reflexivity.
    + reflexivity.
Defined.

(** C4, as stated, fails: after the owner deactivated event 1, Alice's
    call for its slot 10 is not answered "Slot not available"; it gets the
    answer it got while the event was active. *)
Lemma inactive_event_call_not_answered_slot_closed :
  is_active <$> events event_deactivated !! 1 = Some false
  ∧ slot_event_id <$> time_slots event_deactivated !! 10 = Some 1
  ∧ (book_slot no_fault event_deactivated alice (ask 10 1)).1
    ≠ slot_not_available
  ∧ (book_slot no_fault event_deactivated alice (ask 10 1)).1
    = (book_slot no_fault (fresh 2) alice (ask 10 1)).1.
Proof. repeat split; try reflexivity. discriminate. Qed.

(** C4, amended. The activation flag of the owning event is not consulted
    by the handler, and toggling an event changes no slot: a call against a
    slot of an event is answered after the event was deactivated, or
    activated, exactly as before, whatever the capacity that is left and
    whatever the database does.  The same holds for any other change of
    the events table. *)
Theorem deactivation_changes_no_answer
    fault fault' db owner event_id u data :
  let db' := (ngo_toggle_event_status fault db owner event_id).2 in
  (book_slot fault' db' u data).1 = (book_slot fault' db u data).1
  ∧ time_slots db' = time_slots db
  ∧ bookings db' = bookings db
  ∧ ∀ es, (book_slot fault' (set_events db es) u data).1
          = (book_slot fault' db u data).1.
Proof.
  intros db'.
  assert (volunteers db' = volunteers db ∧ time_slots db' = time_slots db
          ∧ bookings db' = bookings db) as (Hvolunteers & Hslots & Hbookings).
  { subst db'. unfold ngo_toggle_event_status, attempt.
    destruct (owned_event db owner event_id _); [done|].
    by destruct (fault OpCommit). }
  split; [by apply book_slot_reads_volunteers_and_bookings|].
  split; [done|]. split; [done|].
  intros es. by rewrite book_slot_ignores_events.
Qed.

(** C9, as the handler behaves.  Alice's call for slot 10 of event 1,
    which is open and has room, with the identifier of event 2 is answered
    with the exception of [db.session.begin()] and leaves no booking; and
    no call at all, whatever it names and whatever the database does, adds
    a booking. *)
Theorem foreign_event_call_creates_no_booking :
  let call := book_slot no_fault (fresh 5) alice (ask 10 2) in
  time_slots (fresh 5) !! 10 = Some (mkTimeSlot 1 5 0 true)
  ∧ is_Some (events (fresh 5) !! 2)
  ∧ call = (booking_failed already_begun, fresh 5)
  ∧ bookings call.2 = []
  ∧ ∀ fault db u data, bookings (book_slot fault db u data).2 = bookings db.
Proof.
  intros call. split; [reflexivity|]. split; [by eexists|].
  split; [reflexivity|]. split; [reflexivity|].
  intros fault db u data. by rewrite book_slot_keeps_db.
Qed.

End BookSlotClaims.

(** ** The cached counter and the bookings *)

Module CounterFacts.
Import Ledger Http Storage BookSlot EventAdmin Guard Core BookSlotFacts.



Lemma reserved_nonneg s bs : 0 ≤ reserved s bs.
Proof. unfold reserved. lia. Qed.



Lemma find_booking_cons id b bs :
  head (filter (λ b', booking_id b' = id) (b :: bs))
    = if decide (booking_id b = id) then Some b
      else head (filter (λ b', booking_id b' = id) bs).
Proof. rewrite filter_cons. by destruct (decide _). Qed.


Lemma find_booking_mark_cancelled id bs b :
  head (filter (λ b', booking_id b' = id) bs) = Some b →
  head (filter (λ b', booking_id b' = id) (mark_cancelled id bs))
    = Some (cancelled_copy b).
Proof.
  intros Hfind. induction bs as [|x bs IH]; [done|].
  rewrite find_booking_cons in Hfind. simpl.
  destruct (decide (booking_id x = id)) as [Hid|Hid].
  - simplify_eq. rewrite find_booking_cons. by rewrite decide_True.
  - rewrite find_booking_cons, decide_False by done. by apply IH.
Qed.

(** Cancelling changes no booking's claimant or slot. *)
Lemma bookings_of_mark_cancelled id bs v s :
  filter (λ b, booking_volunteer_id b = v ∧ time_slot_id b = s) bs = [] →
  filter (λ b, booking_volunteer_id b = v ∧ time_slot_id b = s)
         (mark_cancelled id bs) = [].
Proof.
  induction bs as [|x bs IH]; [done|].
  rewrite filter_cons. case_decide as Hx; [done|]. intros Hnil. simpl.
  case_decide.
  - rewrite filter_cons. by rewrite decide_False.
  - rewrite filter_cons. rewrite decide_False by done. by apply IH.
Qed.




(** *** Bookings that name the event of their slot *)

Lemma no_bookings_events_agree db : bookings db = [] → events_agree db.
Proof. intros Hnone b slot Hin. rewrite Hnone in Hin. by inversion Hin. Qed.





Lemma ngo_delete_event_cases fault db u event_id :
  (ngo_delete_event fault db u event_id).2 = db
  ∨ (ngo_delete_event fault db u event_id).2 = delete_cascade db event_id.
Proof.
  unfold ngo_delete_event, attempt.
  repeat (case_match; simpl; simplify_eq; auto).
Qed.


(** Why the bookings have to be on the events of their slots: deleting
    an event removes the bookings that carry its identifier and the slots
    that carry it.  On rows in which a booking carries another event than
    its slot, the booking goes with the one event while the slot and its
    counter stay with the other. *)
Lemma deletion_relies_on_events_agree :
  capacity_invariant Sample.misfiled
  ∧ ¬ events_agree Sample.misfiled
  ∧ ¬ capacity_invariant
        (ngo_delete_event no_fault Sample.misfiled Sample.owner 2).2.
Proof.
  split; [|split].
  - intros s slot Hlook. simpl in Hlook.
    apply lookup_insert_Some in Hlook as [[<- <-]|[_ Hlook]];
      [split; [reflexivity|simpl; lia]|].
    apply lookup_insert_Some in Hlook as [[<- <-]|[_ Hlook]];
      [split; [reflexivity|simpl; lia]|].
    by rewrite lookup_empty in Hlook.
  - intros Hagree.
    specialize (Hagree (mkBooking 1 101 10 2 "confirmed")
                  (mkTimeSlot 1 5 1 true)).
    discriminate Hagree; [by left|reflexivity].
  - intros Hinv.
    destruct (Hinv 10 (mkTimeSlot 1 5 1 true)) as [Hcount _];
      [reflexivity|]. discriminate Hcount.
Qed.

End CounterFacts.

Module CounterClaims.
Import Ledger Http Storage BookSlot EventAdmin Guard Core Sample.
Import BookSlotFacts CounterFacts.

Lemma fresh_invariant cap : 0 ≤ cap → capacity_invariant (fresh cap).
Proof.
  intros Hcap s slot Hlook. simpl in Hlook.
  apply lookup_insert_Some in Hlook as [[<- <-]|[_ Hlook]];
    [by split|].
  apply lookup_insert_Some in Hlook as [[<- <-]|[_ Hlook]];
    [by split|].
  by rewrite lookup_empty in Hlook.
Qed.





(** C7, as the handler behaves.  Cancelling the confirmed booking of a
    slot that is booked to capacity opens the slot again, with one place
    free; the call of a claimant with no booking on the slot that follows
    is still not booked: it is answered with the exception of
    [db.session.begin()] and leaves the ledger as the cancellation left
    it. *)
Theorem book_after_cancel_fails_at_begin db id b slot :
  find_booking db id = Some b →
  status b = "confirmed" →
  time_slots db !! time_slot_id b = Some slot →
  current_volunteers slot = max_volunteers slot →
  ∃ db' slot',
    Cancel db id = inr db'
    ∧ time_slots db' !! time_slot_id b = Some slot'
    ∧ is_available slot' = true
    ∧ current_volunteers slot' < max_volunteers slot'
    ∧ ∀ fault u data v e,
        quiet fault → eligible db u data v (time_slot_id b) e →
        bookings_of db (volunteer_id v) (time_slot_id b) = [] →
        book_slot fault db' u data = (booking_failed already_begun, db')
        ∧ booking_failed already_begun ≠ booked.
Proof.
  intros Hfind Hst Hslot Hfull. unfold Cancel. rewrite Hfind, Hslot.
  rewrite decide_True by done.
  eexists _, _. split; [reflexivity|]. simpl.
  split; [by rewrite lookup_insert_eq|]. simpl.
  split; [by rewrite decide_True by lia|]. split; [lia|].
  intros fault u data v e Hq (Hrole & Hs & He & Hv) Hnew.
  split; [|apply booking_failed_not_booked].
  erewrite book_slot_eligible; [|done|by repeat split].
  unfold bookings_of. simpl.
  by rewrite (bookings_of_mark_cancelled id _ _ _ Hnew).
Qed.

(** Alice holds the only place of slot 10 and cancels; Bob asks for it. *)
Lemma book_after_cancel_fails_at_begin_witness :
  ∃ db' slot',
    Cancel slot_taken 1 = inr db'
    ∧ time_slots db' !! 10 = Some slot'
    ∧ is_available slot' = true
    ∧ book_slot no_fault db' bob (ask 10 1)
      = (booking_failed already_begun, db').
Proof.
  destruct (book_after_cancel_fails_at_begin slot_taken 1
              (mkBooking 1 101 10 1 "confirmed") (mkTimeSlot 1 1 1 false))
    as (db' & slot' & Hcancel & Hslot & Hopen & _ & Hbook).
  - reflexivity.
  - reflexivity.
  - reflexivity.
  - reflexivity.
  - exists db', slot'. split; [exact Hcancel|]. split; [exact Hslot|].
    split; [exact Hopen|].
    apply (Hbook no_fault bob (ask 10 1) (mkVolunteer 102 2) 1).
    + intros op. reflexivity.
    + repeat split; reflexivity.
    + reflexivity.
Defined.

End CounterClaims.

(** ** The migration runner *)

Module MigrationFacts.
Import Storage Migrations.

Lemma insert_by_version_perm m ms : insert_by_version m ms ≡ₚ m :: ms.
Proof.
  induction ms as [|x ms IH]; simpl; [done|].
  case_decide; [done|]. rewrite IH. apply Permutation_swap.
Qed.

Lemma sorted_by_version_perm ms : sorted_by_version ms ≡ₚ ms.
Proof.
  induction ms as [|m ms IH]; simpl; [done|].
  by rewrite insert_by_version_perm, IH.
Qed.

Lemma insert_by_version_ascending m ms :
  ascending ms → ascending (insert_by_version m ms).
Proof.
  unfold ascending. induction 1 as [|x ms Hsorted IH Hall]; simpl.
  - repeat constructor.
  - case_decide as Hle.
    + constructor; [by constructor|].
      constructor; [done|].
      eapply Forall_impl; [exact Hall|]. simpl. intros y Hy. lia.
    + constructor; [done|].
      rewrite insert_by_version_perm. constructor; [lia|done].
Qed.

(** The sort is stable; in particular it leaves an ascending list, such as
    the registered one, as it is. *)
Lemma sorted_by_version_ascending_id ms :
  ascending ms → sorted_by_version ms = ms.
Proof.
  unfold ascending. induction 1 as [|m ms Hsorted IH Hall]; [done|].
  simpl. rewrite IH. destruct Hall as [|x ms' Hx _]; [done|].
  simpl. by rewrite decide_True.
Qed.

Lemma sorted_by_version_ascending ms : ascending (sorted_by_version ms).
Proof.
  induction ms as [|m ms IH]; simpl; [constructor|].
  by apply insert_by_version_ascending.
Qed.

Section Runner.

Context (raises : Store → Statement → option string).

(** A migration that goes through appends its row to the table. *)
Lemma apply_statements_records st m st' :
  apply_statements raises st m = inr st' →
  migrations_table st' = (λ rows, rows ++ [row_of m]) <$> migrations_table st.
Proof.
  unfold apply_statements, attempt. intros Happly.
  repeat (case_match; simpl in *; simplify_eq); done.
Qed.

Lemma applied_from_records st ms st' :
  applied_from raises st ms st' →
  migrations_table st'
    = (λ rows, rows ++ (row_of <$> ms)) <$> migrations_table st.
Proof.
  induction 1 as [st|st m st' ms st'' Happly _ IH]; simpl.
  - destruct (migrations_table st); simpl; [|done].
    by rewrite app_nil_r.
  - rewrite IH, (apply_statements_records _ _ _ Happly).
    destruct (migrations_table st); simpl; [|done].
    by rewrite <- app_assoc.
Qed.

(** The loop applies the longest prefix of its list that goes through,
    starts on the migration after it, if there is one, and on nothing
    else. *)
Lemma apply_in_order_prefix st ms :
  ∃ done rest,
    ms = done ++ rest
    ∧ applied_from raises st done (apply_in_order raises st ms).1
    ∧ attempted (apply_in_order raises st ms).2
      = version <$> (done ++ take 1 rest)
    ∧ (rest = [] ∨
       ∃ m rest' e,
         rest = m :: rest'
         ∧ apply_statements raises (apply_in_order raises st ms).1 m
           = inl e).
Proof.
  revert st. induction ms as [|m ms IH]; intros st.
  - exists [], []. simpl. repeat split; [constructor|by left].
  - simpl. unfold apply_migration.
    destruct (apply_statements raises st m) as [e|st'] eqn:Happly.
    + exists [], (m :: ms). simpl.
      repeat split; [constructor|]. right. eauto.
    + destruct (IH st') as (done & rest & -> & Hrun & Hout & Hrest).
      destruct (apply_in_order raises st' (done ++ rest))
        as [st'' out'] eqn:Hloop.
      simpl in *. exists (m :: done), rest.
      repeat split; [by econstructor|by rewrite Hout|done].
Qed.

Lemma get_current_version_attempts_nothing st :
  attempted (get_current_version raises st).2 = [].
Proof.
  unfold get_current_version.
  repeat (case_match; simpl; try done).
Qed.

End Runner.

End MigrationFacts.

Module MigrationClaims.
Import Storage Migrations MigrationFacts.

(** C10. Let [current] be the version that [get_current_version] answers.
    The registered migrations with a version above [current], sorted by
    ascending version, split into a part [done] and a part [rest]:
    the migrations of [done] are applied one after the other, each of
    them committed and recorded by a row appended to the [migrations]
    table; [rest] is empty, or its first migration fails on the state
    reached and is the last one the run starts on. *)
Theorem run_migrations_applies_pending_in_order raises migrations st :
  let current := (get_current_version raises st).1.1 in
  let st0 := (get_current_version raises st).1.2 in
  let result := run_migrations raises migrations st in
  ∃ done rest,
    sorted_by_version (pending migrations current) = done ++ rest
    ∧ done ++ rest ≡ₚ filter (λ m, current < version m) migrations
    ∧ ascending (done ++ rest)
    ∧ applied_from raises st0 done result.1
    ∧ migrations_table result.1
      = (λ rows, rows ++ (row_of <$> done)) <$> migrations_table st0
    ∧ attempted result.2 = version <$> (done ++ take 1 rest)
    ∧ (rest = [] ∨
       ∃ m rest' e,
         rest = m :: rest'
         ∧ apply_statements raises result.1 m = inl e).
Proof.
  intros current st0 result.
  pose proof (get_current_version_attempts_nothing raises st) as Hquiet.
  subst current st0 result. unfold run_migrations.
  destruct (get_current_version raises st) as [[current st0] out0].
  simpl in *.
  pose proof (sorted_by_version_perm (pending migrations current)) as Hperm.
  pose proof (sorted_by_version_ascending (pending migrations current))
    as Hasc.
  destruct (apply_in_order_prefix raises st0
              (sorted_by_version (pending migrations current)))
    as (done & rest & Hsplit & Hrun & Hout & Hrest).
  exists done, rest. rewrite <- Hsplit.
  split; [done|]. split; [done|]. split; [done|].
  destruct (pending migrations current) as [|m ms] eqn:Hpending.
  - simpl in *. destruct done, rest; simplify_eq/=.
    split; [done|].
    split; [by apply (applied_from_records raises st0 [] st0)|].
    split; [|by left].
    unfold attempted in *. rewrite omap_app, Hquiet. done.
  - destruct (apply_in_order raises st0 (sorted_by_version (m :: ms)))
      as [st' out] eqn:Hloop.
    simpl in *.
    split; [done|].
    split; [exact (applied_from_records raises _ _ _ Hrun)|].
    split; [|done].
    unfold attempted in *. rewrite omap_app, Hquiet. done.
Qed.

(** On a fresh database that refuses nothing, the four registered
    migrations are applied in the order 1, 2, 3, 4. *)
Example registered_migrations_from_scratch :
  let result := run_migrations never_raises registered empty_store in
  migrations_table result.1 = Some (row_of <$> registered)
  ∧ executed result.1 = sql <$> registered
  ∧ attempted result.2 = [1; 2; 3; 4].
Proof. repeat split; reflexivity. Qed.

(** When the third script is refused, migrations 1 and 2 are recorded,
    migration 3 is started and leaves nothing, and migration 4 is not
    started; the run ends on the exception of the rollback, not on that of
    the script. *)
Example registered_migrations_stop_at_failure :
  let result := run_migrations refuses_third registered empty_store in
  migrations_table result.1 = Some (row_of <$> take 2 registered)
  ∧ executed result.1 = sql <$> take 2 registered
  ∧ attempted result.2 = [1; 2; 3]
  ∧ last result.2 = Some (MigrationFailed outside_app_context).
Proof. repeat split; reflexivity. Qed.

(** A database at version 2 gets migrations 3 and 4 only. *)
Example registered_migrations_from_version_2 :
  let st := mkStore (Some (row_of <$> take 2 registered)) [] in
  let result := run_migrations never_raises registered st in
  (get_current_version never_raises st).1.1 = 2
  ∧ migrations_table result.1 = Some (row_of <$> registered)
  ∧ attempted result.2 = [3; 4].
Proof. repeat split; reflexivity. Qed.

End MigrationClaims.

(** ** Calls that are in flight together *)

Module ConcurrentFacts.
Import Ledger Http Storage BookSlot Concurrent BookSlotFacts CounterFacts.

(** One call alone: its two steps are the handler. *)
Lemma two_steps_are_book_slot fault db u data :
  match advance fault db (Arrived u data) with
  | Some (db1, Answered r) => book_slot fault db u data = (r, db1)
  | Some (db1, c) =>
      match advance fault db1 c with
      | Some (db2, Answered r) => book_slot fault db u data = (r, db2)
      | _ => False
      end
  | None => False
  end.
Proof.
  unfold book_slot, book_slot_try. simpl.
  destruct (decide (role u = "volunteer")) as [Hrole|]; [|done].
  destruct (book_slot_checks fault request_session db u data)
    as [e|[r|[[[v s] e] session]]]; simpl; try done.
  by destruct (book_slot_transaction fault session db v s e) as [?|[??]].
Qed.

(** *** Safety of every interleaving *)




(** *** What the calls of the handler do *)

Lemma arrive_handled requests : Forall handled (arrive requests).
Proof. unfold arrive. apply Forall_fmap, Forall_forall. by intros r _. Qed.

(** A step of a call of the handler writes nothing. *)
Lemma step_handled fault cfg cfg' :
  Forall handled cfg.2 → step fault cfg cfg' →
  cfg'.1 = cfg.1 ∧ Forall handled cfg'.2.
Proof.
  intros Hhandled Hstep.
  destruct Hstep as [db db' before c c' after Hadv]. simpl in *.
  apply Forall_app in Hhandled as [Hbefore Hrest].
  apply Forall_cons in Hrest as [Hc Hafter].
  assert (db' = db ∧ handled c') as [-> Hc']; [|split; [done|]].
  - destruct c as [u data|session v s e|r]; simpl in Hadv; [| |done].
    + pose proof (book_slot_not_booked fault db u data) as Hout.
      rewrite book_slot_answer in Hout. cbn [fst] in Hout.
      case_decide; [|by simplify_eq].
      destruct (book_slot_checks fault request_session db u data)
        as [?|[r|[[[v s] e] session]]] eqn:Hchecks.
      * injection Hadv as <- <-. split; [done|].
        apply booking_failed_not_booked.
      * injection Hadv as <- <-. done.
      * injection Hadv as <- <-. split; [done|]. simpl.
        by eapply book_slot_checks_begin_transaction.
    + simpl in Hc. subst session.
      rewrite book_slot_transaction_raises in Hadv. simplify_eq.
      split; [done|]. apply booking_failed_not_booked.
  - apply Forall_app. split; [done|]. by apply Forall_cons.
Qed.

(** No interleaving of the calls of a list of requests writes, and none
    ends with a call that was booked. *)
Lemma run_of_requests_keeps_db fault db requests db' calls' :
  rtc (step fault) (db, arrive requests) (db', calls') →
  db' = db ∧ Forall handled calls'.
Proof.
  intros Hrun.
  assert (∀ cfg cfg', rtc (step fault) cfg cfg' → Forall handled cfg.2 →
                       cfg'.1 = cfg.1 ∧ Forall handled cfg'.2) as Hall.
  { clear. induction 1 as [|cfg cfg1 cfg' Hstep _ IH]; [done|].
    intros Hhandled.
    destruct (step_handled fault cfg cfg1 Hhandled Hstep) as [Hdb Hcalls].
    destruct (IH Hcalls) as [Hdb' Hcalls']. split; [congruence|done]. }
  apply (Hall _ _ Hrun). apply arrive_handled.
Qed.

(** Alice and Bob ask for the one place of slot 10 at the same time: both
    pass the checks and both are answered with the exception of
    [db.session.begin()]. *)
Lemma race_for_last_place :
  rtc (step no_fault)
      (Sample.fresh 1,
       arrive [(Sample.alice, Sample.ask 10 1);
               (Sample.bob, Sample.ask 10 1)])
      (Sample.fresh 1,
       [Answered (booking_failed already_begun);
        Answered (booking_failed already_begun)]).
Proof.
  eapply rtc_l.
  { by apply (step_call no_fault (Sample.fresh 1) (Sample.fresh 1) []
                (Arrived Sample.alice (Sample.ask 10 1))
                (Checked InTransaction (mkVolunteer 101 1) 10 1)
                [Arrived Sample.bob (Sample.ask 10 1)]). }
  eapply rtc_l.
  { by apply (step_call no_fault (Sample.fresh 1) (Sample.fresh 1)
                [Checked InTransaction (mkVolunteer 101 1) 10 1]
                (Arrived Sample.bob (Sample.ask 10 1))
                (Checked InTransaction (mkVolunteer 102 2) 10 1) []). }
  eapply rtc_l.
  { by apply (step_call no_fault (Sample.fresh 1) (Sample.fresh 1) []
                (Checked InTransaction (mkVolunteer 101 1) 10 1)
                (Answered (booking_failed already_begun))
                [Checked InTransaction (mkVolunteer 102 2) 10 1]). }
  eapply rtc_l; [|apply rtc_refl].
  by apply (step_call no_fault (Sample.fresh 1) (Sample.fresh 1)
              [Answered (booking_failed already_begun)]
              (Checked InTransaction (mkVolunteer 102 2) 10 1)
              (Answered (booking_failed already_begun)) []).
Qed.

End ConcurrentFacts.

Module ConcurrentClaims.
Import Ledger Http Storage BookSlot Concurrent Sample.
Import BookSlotFacts CounterFacts ConcurrentFacts.




End ConcurrentClaims.

(** ** Uploaded files *)

Module FileFacts.
Import EventAdmin Files.

Lemma append_nil s : "" +:+ s = s.
Proof. reflexivity. Qed.

Lemma append_cons c s t : String c s +:+ t = String c (s +:+ t).
Proof. reflexivity. Qed.

Lemma split_last_dot_None s :
  split_last_dot s = None ↔ has_dot s = false.
Proof.
  induction s as [|c s IH]; simpl; [done|].
  destruct (split_last_dot s) as [[before after]|].
  - split; [done|]. case_decide; [done|]. intros Hno.
    by apply IH in Hno.
  - case_decide; [done|]. split; [intros _; by apply IH|done].
Qed.

Lemma split_last_dot_Some s before after :
  split_last_dot s = Some (before, after)
  ↔ s = before +:+ "." +:+ after ∧ has_dot after = false.
Proof.
  split.
  - revert before. induction s as [|c s IH]; intros before; simpl; [done|].
    destruct (split_last_dot s) as [[b a]|] eqn:Hs.
    + intros [= <- <-]. destruct (IH b eq_refl) as [-> Hno]. done.
    + case_decide as Hc; [|done]. intros [= <- <-]. subst c.
      split; [done|]. by apply split_last_dot_None.
  - intros [-> Hno]. induction before as [|c before IH].
    + rewrite append_nil, append_cons, append_nil. simpl.
      apply split_last_dot_None in Hno. by rewrite Hno.
    + rewrite append_cons. simpl. by rewrite IH.
Qed.

(** X1. A name is allowed exactly when it ends in a dot followed by a
    dot-free extension that, in lower case, is one of the seven allowed
    ones.  Whatever stands before the last dot plays no part, and a name
    without a dot is never allowed. *)
Theorem allowed_file_iff_last_extension name :
  allowed_file name = true
  ↔ ∃ base extension,
      name = base +:+ "." +:+ extension
      ∧ has_dot extension = false
      ∧ lower extension ∈ ALLOWED_EXTENSIONS.
Proof.
  unfold allowed_file, rsplit_dot. split.
  - intros [Hdot Hext]%andb_prop.
    destruct (split_last_dot name) as [[base extension]|] eqn:Hsplit.
    + apply split_last_dot_Some in Hsplit as [-> Hno]. simpl in Hext.
      apply bool_decide_eq_true in Hext. eauto.
    + apply split_last_dot_None in Hsplit. congruence.
  - intros (base & extension & -> & Hno & Hin).
    assert (split_last_dot (base +:+ "." +:+ extension)
            = Some (base, extension)) as Hsplit
      by (by apply split_last_dot_Some).
    rewrite Hsplit. simpl. rewrite bool_decide_eq_true_2 by done.
    rewrite andb_true_r.
    destruct (has_dot (base +:+ "." +:+ extension)) eqn:Hdot; [done|].
    apply split_last_dot_None in Hdot. congruence.
Qed.

Example allowed_file_samples :
  allowed_file "report.PDF" = true
  ∧ allowed_file "shell.php.jpg" = true
  ∧ allowed_file "photo.jpg.exe" = false
  ∧ allowed_file "png" = false
  ∧ allowed_file "archive." = false.
Proof. repeat split; reflexivity. Qed.

Section Upload.

Context (secure_filename : string → string) (timestamp : string)
  (save_raises : string → option string).

Local Abbreviation upload := (upload_file secure_filename timestamp save_raises).
Local Abbreviation path := (upload_path secure_filename timestamp).

(** X2. An upload writes at most one path, and it writes one exactly when
    the request is not longer than 16 * 1024 * 1024 bytes, holds a file with
    a non-empty name, of at most 16 * 1024 * 1024 bytes and with an allowed
    name, and saving it does not raise; the path is then the time-stamped
    secured name under the upload folder.  In every other case the disk is
    left as it was and an error is flashed.  The answer "File too large" is
    never given to a request whose body holds the file: a request that long
    is refused when its body is parsed. *)
Theorem upload_file_writes_iff_accepted request disk :
  let accepted :=
    ∃ file,
      content_length request ≤ 16777216
      ∧ files request = Some file
      ∧ filename file ≠ ""
      ∧ file_length file ≤ 16777216
      ∧ allowed_file (filename file) = true
      ∧ save_raises (path (filename file)) = None in
  (accepted →
     ∃ file, files request = Some file
       ∧ upload request disk
         = (Flashed "File uploaded successfully" "success",
            disk ++ [path (filename file)]))
  ∧ (¬ accepted →
     (upload request disk).2 = disk
     ∧ ∃ msg, (upload request disk).1 = Flashed msg "error")
  ∧ (holds_file request →
     (upload request disk).1
       ≠ Flashed "File too large. Maximum size is 16MB" "error").
Proof.
  intros accepted. subst accepted.
  unfold upload_file, MAX_FILE_SIZE, MAX_CONTENT_LENGTH. split; [|split].
  - intros (file & Hlength & Hfile & Hname & Hsize & Hallowed & Hsave).
    exists file. split; [done|].
    rewrite decide_False by lia. rewrite Hfile.
    rewrite decide_False by done. rewrite decide_False by lia.
    by rewrite Hallowed, Hsave.
  - intros Hrejected. case_decide as Hlength; [by eauto|].
    destruct (files request) as [file|] eqn:Hfile; [|by eauto].
    case_decide as Hname; [by eauto|].
    case_decide as Hsize; [by eauto|].
    destruct (allowed_file (filename file)) eqn:Hallowed; [|by eauto].
    destruct (save_raises _) as [e|] eqn:Hsave; [by eauto|].
    exfalso. apply Hrejected. exists file.
    repeat split; try done; lia.
  - intros Hholds. case_decide as Hlength.
    { rewrite !append_cons. simpl. discriminate. }
    destruct (files request) as [file|] eqn:Hfile; [|done].
    specialize (Hholds file Hfile).
    case_decide as Hname; [done|].
    rewrite decide_False by lia.
    destruct (allowed_file (filename file)); [|done].
    destruct (save_raises _) as [e|]; [|done].
    rewrite !append_cons. simpl. discriminate.
Qed.

End Upload.

(** A report of 1000 bytes in a request of 1200 bytes. *)
Lemma upload_file_writes_iff_accepted_witness :
  ∃ file,
    Some (mkFileStorage "report.PDF" 1000) = Some file
    ∧ upload_file (λ n, n) "20240101_120000" (λ _, None)
        (mkUploadRequest 1200 (Some (mkFileStorage "report.PDF" 1000))) []
      = (Flashed "File uploaded successfully" "success",
         [] ++ [upload_path (λ n, n) "20240101_120000" (filename file)]).
Proof.
  apply (upload_file_writes_iff_accepted (λ n, n) "20240101_120000"
           (λ _, None)
           (mkUploadRequest 1200 (Some (mkFileStorage "report.PDF" 1000)))
           []).
  exists (mkFileStorage "report.PDF" 1000).
  split; [simpl; lia|]. split; [reflexivity|]. split; [discriminate|].
  split; [simpl; lia|]. split; reflexivity.
Defined.

(** A file of 16 * 1024 * 1024 bytes: the request that holds it is longer
    than the limit and is refused before the handler sees the file. *)
Example upload_of_largest_file_is_refused :
  upload_file (λ n, n) "20240101_120000" (λ _, None)
    (mkUploadRequest 16777416 (Some (mkFileStorage "report.PDF" 16777216)))
    []
  = (Flashed ("File upload failed: " +:+ request_too_large) "error", []).
Proof. reflexivity. Qed.

End FileFacts.

(** ** Pages and redirects *)

Module PageFacts.
Import Ledger Pages.

Lemma follow_step hops db u endpoint handler :
  route endpoint = Some handler →
  follow hops db u endpoint =
    match reply (handler db u) with
    | Render template => Some template
    | Redirect endpoint' =>
        match hops with
        | O => None
        | S hops' => follow hops' db u endpoint'
        end
    | Abort _ => None
    end.
Proof. intros Hroute. destruct hops; simpl; by rewrite Hroute. Qed.

Lemma follow_dashboard hops db u :
  follow hops db u "dashboard" =
    match reply (dashboard db u) with
    | Render template => Some template
    | Redirect endpoint' =>
        match hops with
        | O => None
        | S hops' => follow hops' db u endpoint'
        end
    | Abort _ => None
    end.
Proof. by apply follow_step. Qed.

(** X3. From [/dashboard] a client that follows redirects reaches a rendered
    page after one redirect, unless the user has the role "ngo" or
    "volunteer" and no profile of that kind: then [dashboard] and the role's
    dashboard redirect to each other and no page is ever rendered. *)
Theorem dashboard_redirects_end_or_cycle db u :
  (¬ profile_missing db u → ∃ template, follow 1 db u "dashboard" = Some template)
  ∧ (profile_missing db u → ∀ hops, follow hops db u "dashboard" = None).
Proof.
  split.
  - intros Hok. rewrite follow_dashboard. unfold dashboard.
    repeat case_decide; cbn [reply].
    + rewrite (follow_step 0 db u "admin_dashboard" admin_dashboard eq_refl).
      unfold admin_dashboard. rewrite decide_True by done. eauto.
    + rewrite (follow_step 0 db u "ngo_dashboard" ngo_dashboard eq_refl).
      unfold ngo_dashboard. rewrite decide_True by done.
      destruct (ngo_of_user db (user_id u)) eqn:Hngo; [by eauto|].
      exfalso. apply Hok. by left.
    + rewrite (follow_step 0 db u "volunteer_dashboard" volunteer_dashboard
                 eq_refl).
      unfold volunteer_dashboard. rewrite decide_True by done.
      destruct (volunteer_of_user db (user_id u)) eqn:Hvol; [by eauto|].
      exfalso. apply Hok. by right.
    + rewrite (follow_step 0 db u "donor_dashboard" donor_dashboard eq_refl).
      unfold donor_dashboard. rewrite decide_True by done. eauto.
    + rewrite (follow_step 0 db u "index" index eq_refl). cbn. eauto.
  - intros [[Hrole Hnone]|[Hrole Hnone]] hops.
    + assert (follow hops db u "dashboard" = None
              ∧ follow hops db u "ngo_dashboard" = None) as [Hloop _];
        [|done].
      induction hops as [|hops [IH1 IH2]].
      * rewrite follow_dashboard.
        rewrite (follow_step 0 db u "ngo_dashboard" ngo_dashboard eq_refl).
        unfold dashboard, ngo_dashboard. rewrite Hrole, Hnone. done.
      * rewrite follow_dashboard.
        rewrite (follow_step (S hops) db u "ngo_dashboard" ngo_dashboard
                   eq_refl).
        unfold dashboard, ngo_dashboard. rewrite Hrole, Hnone. done.
    + assert (follow hops db u "dashboard" = None
              ∧ follow hops db u "volunteer_dashboard" = None) as [Hloop _];
        [|done].
      induction hops as [|hops [IH1 IH2]].
      * rewrite follow_dashboard.
        rewrite (follow_step 0 db u "volunteer_dashboard" volunteer_dashboard
                   eq_refl).
        unfold dashboard, volunteer_dashboard. rewrite Hrole, Hnone. done.
      * rewrite follow_dashboard.
        rewrite (follow_step (S hops) db u "volunteer_dashboard"
                   volunteer_dashboard eq_refl).
        unfold dashboard, volunteer_dashboard. rewrite Hrole, Hnone. done.
Qed.

End PageFacts.

(** ** Accounts: registration and login *)

Module AccountFacts.
Import Ledger Http Storage BookSlot Pages Accounts BookSlotFacts PageFacts.

Lemma account_of_email_None site e :
  account_of_email site e = None → e ∉ email <$> accounts site.
Proof.
  unfold account_of_email. intros Hnone%head_None Hin.
  apply list_elem_of_fmap in Hin as (a & -> & Ha).
  by apply (filter_nil_not_elem_of _ _ a) in Hnone.
Qed.

Section Passwords.

Context (generate_password_hash : string → string)
  (check_password_hash : string → string → bool).

Local Abbreviation register := (register generate_password_hash).
Local Abbreviation login := (login check_password_hash).
Local Abbreviation login_all := (login_all check_password_hash).
Local Abbreviation refused := (refused check_password_hash).

(** What a successful registration writes to the users table. *)
Lemma register_accounts site form :
  account_of_email site (form_email form) = None →
  accounts (register site (Some form)).2
    = accounts site
      ++ [mkAccount (next_user_id site) (form_email form)
            (generate_password_hash (form_password form)) (form_role form)]
  ∧ next_user_id (register site (Some form)).2 = next_user_id site + 1.
Proof.
  intros Hfree. unfold Accounts.register. rewrite Hfree.
  repeat case_decide; done.
Qed.

(** X4. Registration keeps the e-mail addresses of the users table pairwise
    distinct, and a form whose address is registered already changes
    nothing. *)
Theorem register_keeps_emails_unique site request :
  emails_unique site →
  emails_unique (register site request).2
  ∧ (∀ form,
       request = Some form →
       is_Some (account_of_email site (form_email form)) →
       (register site request).2 = site).
Proof.
  unfold emails_unique. intros Hunique. split.
  - destruct request as [form|]; [|done].
    destruct (account_of_email site (form_email form)) eqn:Hfree.
    + unfold Accounts.register. by rewrite Hfree.
    + destruct (register_accounts site form Hfree) as [-> _].
      rewrite fmap_app. apply NoDup_app. split; [done|]. split.
      * intros e He Hin. apply list_elem_of_singleton in Hin. subst e.
        by apply account_of_email_None in Hfree.
      * apply NoDup_singleton.
  - intros form -> [a Ha]. unfold Accounts.register. by rewrite Ha.
Qed.

Lemma register_keeps_ids_below_counters site request :
  ids_below_counters site → ids_below_counters (register site request).2.
Proof.
  intros (Hacc & Hvol & Hvoluser & Hngo).
  destruct request as [form|]; [|done].
  unfold Accounts.register.
  destruct (account_of_email site (form_email form)); [done|].
  assert (∀ (A : Type) (f : A → Z) (l : list A) n,
            Forall (λ x, f x < n) l → Forall (λ x, f x < n + 1) l) as Hup.
  { intros A f l n H. eapply Forall_impl; [exact H|]. simpl. intros x. lia. }
  repeat case_decide; unfold ids_below_counters; simpl;
    rewrite ?Forall_app, ?Forall_singleton; simpl;
    repeat split; auto; lia.
Qed.

(** The account that a fresh registration adds is the one found under its
    address and under its identifier. *)
Lemma registered_account_found site form :
  ids_below_counters site →
  account_of_email site (form_email form) = None →
  let site' := (register site (Some form)).2 in
  let user :=
    mkAccount (next_user_id site) (form_email form)
      (generate_password_hash (form_password form)) (form_role form) in
  account_of_email site' (form_email form) = Some user
  ∧ load_user site' (next_user_id site)
    = Some (mkUser (next_user_id site) (form_role form)).
Proof.
  intros (Hacc & _) Hfree site' user.
  destruct (register_accounts site form Hfree) as [Haccounts _].
  unfold account_of_email, load_user. subst site'. rewrite Haccounts.
  rewrite !filter_app. split.
  - unfold account_of_email in Hfree. apply head_None in Hfree.
    rewrite Hfree. simpl. by rewrite filter_cons, decide_True.
  - assert (filter (λ a, account_id a = next_user_id site) (accounts site)
            = []) as ->.
    { clear -Hacc. induction Hacc as [|a l Ha _ IH]; [done|].
      rewrite filter_cons, decide_False by lia. done. }
    simpl. by rewrite filter_cons, decide_True.
Qed.

(** X5. A user who registers with a fresh address can log in with the
    password of the form, as long as the cookie counts fewer than five failed
    logins: the login redirects to the dashboard, clears the counter and
    makes the new account, with the role of the form, the current user.  A
    password that the hash does not accept is refused and counted. *)
Theorem register_then_login site form session :
  (∀ p, check_password_hash (generate_password_hash p) p = true) →
  ids_below_counters site →
  account_of_email site (form_email form) = None →
  default 0 (failed_login_attempts session) < 5 →
  let site' := (register site (Some form)).2 in
  login site' session (Some (form_email form, form_password form))
    = (mkAnswer [] (Redirect "dashboard"),
       mkSession None (Some (next_user_id site)))
  ∧ current_user site' (mkSession None (Some (next_user_id site)))
    = Some (mkUser (next_user_id site) (form_role form))
  ∧ ∀ p,
      check_password_hash (generate_password_hash (form_password form)) p
        = false →
      login site' session (Some (form_email form, p))
        = (mkAnswer [("Invalid email or password", "message")]
                    (Render "login.html"),
           mkSession (Some (default 0 (failed_login_attempts session) + 1))
                     (session_user_id session)).
Proof.
  intros Hcheck Hids Hfree Hcount site'.
  destruct (registered_account_found site form Hids Hfree) as [Hfound Hload].
  fold site' in Hfound, Hload.
  split; [|split].
  - unfold Accounts.login. rewrite decide_False by lia.
    rewrite Hfound. cbn [password_hash account_id]. by rewrite Hcheck.
  - exact Hload.
  - intros p Hwrong. unfold Accounts.login. rewrite decide_False by lia.
    rewrite Hfound. cbn [password_hash account_id]. by rewrite Hwrong.
Qed.

Lemma login_locked site session credentials :
  5 ≤ default 0 (failed_login_attempts session) →
  login site session (Some credentials)
    = (mkAnswer
         [("Too many failed login attempts. Please try again later.",
           "error")]
         (Render "login.html"), session).
Proof.
  intros Hlocked. destruct credentials as [e p]. unfold Accounts.login.
  by rewrite decide_True.
Qed.

Lemma login_all_cons site session credentials attempts :
  login_all site session (credentials :: attempts)
    = login_all site (login site session (Some credentials)).2 attempts.
Proof. reflexivity. Qed.

Lemma login_all_locked site session attempts :
  5 ≤ default 0 (failed_login_attempts session) →
  login_all site session attempts = session.
Proof.
  intros Hlocked. induction attempts as [|c attempts IH]; [done|].
  by rewrite login_all_cons, login_locked.
Qed.

Lemma login_all_failures_lock site session attempts :
  Forall (refused site) attempts →
  5 ≤ default 0 (failed_login_attempts session) + Z.of_nat (length attempts) →
  5 ≤ default 0 (failed_login_attempts (login_all site session attempts))
  ∧ session_user_id (login_all site session attempts)
    = session_user_id session.
Proof.
  intros Hrefused. revert session.
  induction Hrefused as [|[e p] attempts Hc _ IH]; intros session Hmany.
  - simpl in *. split; [lia|done].
  - destruct (decide (5 ≤ default 0 (failed_login_attempts session)))
      as [Hlocked|Hopen].
    + rewrite login_all_locked by done. done.
    + rewrite login_all_cons.
      assert ((login site session (Some (e, p))).2
              = mkSession
                  (Some (default 0 (failed_login_attempts session) + 1))
                  (session_user_id session)) as ->.
      { unfold Accounts.login. rewrite decide_False by done.
        unfold refused in Hc. simpl in Hc.
        destruct (account_of_email site e); [by rewrite Hc|done]. }
      destruct (IH (mkSession
                      (Some (default 0 (failed_login_attempts session) + 1))
                      (session_user_id session))) as [Hlock Huser].
      * simpl in *. lia.
      * done.
Qed.

(** X6. Once the cookie counts five failed logins the login is closed for
    good: after failed attempts that bring the counter to five, every later
    attempt, with the right password too, is answered "Too many failed login
    attempts" and leaves the session as it is.  Nothing in a login request
    lowers the counter again. *)
Theorem five_failures_lock_login site session failures later credentials :
  Forall (refused site) failures →
  5 ≤ default 0 (failed_login_attempts session)
      + Z.of_nat (length failures) →
  let locked := login_all site session failures in
  login site (login_all site locked later) (Some credentials)
    = (mkAnswer
         [("Too many failed login attempts. Please try again later.",
           "error")]
         (Render "login.html"), locked)
  ∧ session_user_id locked = session_user_id session.
Proof.
  intros Hrefused Hmany locked.
  destruct (login_all_failures_lock site session failures Hrefused Hmany)
    as [Hlocked Huser].
  fold locked in Hlocked, Huser.
  rewrite login_all_locked by done. by rewrite login_locked.
Qed.

(** X7. The role of the registration form is stored as it is sent.  A
    visitor who registers with the role "admin" and logs in is an
    administrator: the dashboard takes the new user to the admin
    dashboard. *)
Theorem registration_grants_any_role site e p session :
  (∀ p, check_password_hash (generate_password_hash p) p = true) →
  ids_below_counters site →
  account_of_email site e = None →
  default 0 (failed_login_attempts session) < 5 →
  let site' := (register site (Some (mkRegisterForm e p "admin"))).2 in
  let session' := (login site' session (Some (e, p))).2 in
  ∃ user,
    current_user site' session' = Some user
    ∧ role user = "admin"
    ∧ follow 1 (ledger site') user "dashboard" = Some "admin/dashboard.html".
Proof.
  intros Hcheck Hids Hfree Hcount site' session'.
  destruct (registered_account_found site (mkRegisterForm e p "admin")
              Hids Hfree) as [Hfound Hload].
  fold site' in Hfound, Hload. cbn [form_email form_role] in *.
  assert (session' = mkSession None (Some (next_user_id site))) as ->.
  { subst session'. unfold Accounts.login. rewrite decide_False by lia.
    rewrite Hfound. cbn [password_hash account_id form_password].
    by rewrite Hcheck. }
  exists (mkUser (next_user_id site) "admin").
  split; [exact Hload|]. split; [done|].
  rewrite follow_dashboard. unfold dashboard. cbn [role].
  rewrite decide_True by done. cbn [reply].
  by rewrite (follow_step 0 _ _ "admin_dashboard" admin_dashboard eq_refl).
Qed.

(** X8. A visitor who registers with the role "volunteer" and a fresh
    address gets a volunteer profile of their own, so that their booking
    calls pass the role check and the profile check.  Like the calls of
    every volunteer they then fail at [db.session.begin()]: a call for a
    slot on which the new profile has no booking is answered with status
    500, and the ledger stays as the registration left it. *)
Theorem registered_volunteer_passes_checks site e p data s ev :
  ids_below_counters site →
  account_of_email site e = None →
  truthy (req_slot_id data) = Some s →
  truthy (req_event_id data) = Some ev →
  bookings_of (ledger site) (next_volunteer_id site) s = [] →
  let site' := (register site (Some (mkRegisterForm e p "volunteer"))).2 in
  let user := mkUser (next_user_id site) "volunteer" in
  let volunteer := mkVolunteer (next_volunteer_id site) (next_user_id site) in
  load_user site' (next_user_id site) = Some user
  ∧ volunteer_of_user (ledger site') (next_user_id site) = Some volunteer
  ∧ eligible (ledger site') user data volunteer s ev
  ∧ book_slot no_fault (ledger site') user data
    = (booking_failed already_begun, ledger site').
Proof.
  intros Hids Hfree Hs Hev Hnone site' user volunteer.
  destruct (registered_account_found site (mkRegisterForm e p "volunteer")
              Hids Hfree) as [_ Hload].
  fold site' in Hload. cbn [form_role] in Hload.
  split; [exact Hload|].
  assert (ledger site'
          = add_volunteer (ledger site) volunteer) as Hledger.
  { subst site'. unfold Accounts.register. cbn [form_email form_role].
    rewrite Hfree. rewrite decide_False by done.
    by rewrite decide_True. }
  assert (volunteer_of_user (ledger site') (next_user_id site)
          = Some volunteer) as Hprofile.
  { rewrite Hledger. unfold volunteer_of_user, add_volunteer. simpl.
    rewrite filter_app.
    assert (filter (λ v, volunteer_user_id v = next_user_id site)
              (volunteers (ledger site)) = []) as ->.
    { destruct Hids as (_ & _ & Hvoluser & _).
      induction Hvoluser as [|v l Hv _ IH]; [done|].
      rewrite filter_cons, decide_False by lia. done. }
    simpl. by rewrite filter_cons, decide_True. }
  split; [exact Hprofile|].
  assert (eligible (ledger site') user data volunteer s ev) as Heligible
    by (repeat split; done).
  split; [exact Heligible|].
  rewrite (book_slot_eligible no_fault (ledger site') user data volunteer
             s ev quiet_no_fault Heligible).
  rewrite Hledger. unfold bookings_of in *. simpl. by rewrite Hnone.
Qed.

End Passwords.

Lemma register_keeps_emails_unique_witness :
  emails_unique (register sample_hash sample_site
                   (Some (mkRegisterForm "carol@example.org" "pw" "donor"))).2.
Proof.
  apply (register_keeps_emails_unique sample_hash sample_site
           (Some (mkRegisterForm "carol@example.org" "pw" "donor"))).
  apply (bool_decide_unpack _). vm_compute. exact I.
Defined.

Lemma sample_check_accepts p : sample_check (sample_hash p) p = true.
Proof. apply bool_decide_eq_true_2. reflexivity. Defined.

Lemma sample_site_ids : ids_below_counters sample_site.
Proof.
  unfold ids_below_counters. simpl.
  repeat split; repeat constructor.
Defined.

Lemma register_then_login_witness :
  login sample_check
    (register sample_hash sample_site
       (Some (mkRegisterForm "carol@example.org" "pw" "donor"))).2
    (mkSession (Some 4) None) (Some ("carol@example.org", "pw"))
  = (mkAnswer [] (Redirect "dashboard"), mkSession None (Some 10)).
Proof.
  apply (register_then_login sample_hash sample_check sample_site
           (mkRegisterForm "carol@example.org" "pw" "donor")
           (mkSession (Some 4) None)).
  - exact sample_check_accepts.
  - exact sample_site_ids.
  - reflexivity.
  - simpl. lia.
Defined.

Lemma five_failures_lock_login_witness :
  login sample_check sample_site
    (login_all sample_check sample_site
       (login_all sample_check sample_site (mkSession None None)
          (replicate 5 ("alice@example.org", "guess")))
       [("bob@example.org", "guess")])
    (Some ("alice@example.org", "alice-pw"))
  = (mkAnswer
       [("Too many failed login attempts. Please try again later.", "error")]
       (Render "login.html"),
     login_all sample_check sample_site (mkSession None None)
       (replicate 5 ("alice@example.org", "guess"))).
Proof.
  apply (five_failures_lock_login sample_check sample_site
           (mkSession None None)
           (replicate 5 ("alice@example.org", "guess"))
           [("bob@example.org", "guess")]
           ("alice@example.org", "alice-pw")).
  - repeat constructor.
  - simpl. lia.
Defined.

Lemma registration_grants_any_role_witness :
  ∃ user,
    current_user
      (register sample_hash sample_site
         (Some (mkRegisterForm "mallory@example.org" "pw" "admin"))).2
      (login sample_check
         (register sample_hash sample_site
            (Some (mkRegisterForm "mallory@example.org" "pw" "admin"))).2
         (mkSession None None) (Some ("mallory@example.org", "pw"))).2
    = Some user
    ∧ role user = "admin"
    ∧ follow 1
        (ledger
           (register sample_hash sample_site
              (Some (mkRegisterForm "mallory@example.org" "pw" "admin"))).2)
        user "dashboard"
      = Some "admin/dashboard.html".
Proof.
  apply (registration_grants_any_role sample_hash sample_check sample_site
           "mallory@example.org" "pw" (mkSession None None)).
  - exact sample_check_accepts.
  - exact sample_site_ids.
  - reflexivity.
  - simpl. lia.
Defined.

Lemma registered_volunteer_passes_checks_witness :
  book_slot no_fault
    (ledger
       (register sample_hash sample_site
          (Some (mkRegisterForm "dan@example.org" "pw" "volunteer"))).2)
    (mkUser 10 "volunteer") (Sample.ask 10 1)
  = (booking_failed already_begun,
     ledger
       (register sample_hash sample_site
          (Some (mkRegisterForm "dan@example.org" "pw" "volunteer"))).2).
Proof.
  destruct (registered_volunteer_passes_checks sample_hash sample_site
              "dan@example.org" "pw" (Sample.ask 10 1) 10 1)
    as (_ & _ & _ & Hbook).
  - exact sample_site_ids.
  - reflexivity.
  - reflexivity.
  - reflexivity.
  - reflexivity.
  - exact Hbook.
Defined.

End AccountFacts.

(** ** Deleting, toggling and editing events *)

Module EventAdminFacts.
Import Ledger Http Storage BookSlot EventAdmin Pages EventForms.

Lemma owned_event_inr db u event_id denied event :
  owned_event db u event_id denied = inr event ↔ owns db u event_id event.
Proof.
  unfold owned_event, owns. split.
  - repeat case_match; try done. intros [= <-]. eauto.
  - intros (Hrole & ngo & Hngo & Hevent & Howner).
    rewrite decide_True by done. rewrite Hngo, Hevent.
    by rewrite decide_True.
Qed.

Lemma owned_event_inl db u event_id denied out :
  owned_event db u event_id denied = inl out →
  ¬ ∃ event, owns db u event_id event.
Proof.
  intros Hstop [event Howns].
  apply (owned_event_inr db u event_id denied) in Howns. congruence.
Qed.

(** X9. Only the NGO that owns an event can change it: a request to delete,
    to toggle or to edit an event that does not come from a user with the
    role "ngo" whose NGO profile is the owner of that event leaves the
    database as it is, whatever the storage layer does. *)
Theorem only_owner_changes_event error_text fault db u event_id form :
  (¬ ∃ event, owns db u event_id event) →
  (ngo_delete_event fault db u event_id).2 = db
  ∧ (ngo_toggle_event_status fault db u event_id).2 = db
  ∧ (ngo_edit_event error_text fault db u event_id (Some form)).2 = db.
Proof.
  intros Hnot.
  assert (∀ denied, ∃ out, owned_event db u event_id denied = inl out)
    as Hstop.
  { intros denied.
    destruct (owned_event db u event_id denied) as [out|event] eqn:Hguard;
      [by eauto|].
    exfalso. apply Hnot. exists event. by eapply owned_event_inr. }
  unfold ngo_delete_event, ngo_toggle_event_status, ngo_edit_event.
  repeat split.
  - by destruct (Hstop "Access denied. You can only delete your own events.")
      as [out ->].
  - by destruct (Hstop "Access denied. You can only modify your own events.")
      as [out ->].
  - by destruct (Hstop "Access denied. You can only edit your own events.")
      as [out ->].
Qed.

Lemma only_owner_changes_event_witness :
  (ngo_delete_event no_fault (Sample.fresh 2) Sample.alice 1).2
    = Sample.fresh 2
  ∧ (ngo_toggle_event_status no_fault (Sample.fresh 2) Sample.alice 1).2
    = Sample.fresh 2
  ∧ (ngo_edit_event no_error_text no_fault (Sample.fresh 2) Sample.alice 1
       (Some (sample_form 1 1 50))).2
    = Sample.fresh 2.
Proof.
  apply (only_owner_changes_event no_error_text no_fault (Sample.fresh 2)
           Sample.alice 1 (sample_form 1 1 50)).
  intros [event [Hrole _]]. discriminate Hrole.
Defined.

(** X10. Toggling an event as its owner flips the activation flag of that
    event and nothing else: slots, bookings and every other event stay as
    they are, and toggling a second time gives back the database one started
    from. *)
Theorem toggle_flips_one_flag fault db u event_id event :
  fault OpCommit = None →
  owns db u event_id event →
  let db' := (ngo_toggle_event_status fault db u event_id).2 in
  events db'
    = <[event_id := mkEvent (event_ngo_id event) (event_max_volunteers event)
                            (negb (is_active event))]> (events db)
  ∧ time_slots db' = time_slots db
  ∧ bookings db' = bookings db
  ∧ (ngo_toggle_event_status fault db' u event_id).2 = db.
Proof.
  intros Hcommit Howns db'.
  pose proof Howns as (Hrole & ngo & Hngo & Hevent & Howner).
  assert (db' = toggle_event db event_id event) as Hdb'.
  { subst db'. unfold ngo_toggle_event_status.
    apply (owned_event_inr db u event_id
             "Access denied. You can only modify your own events.") in Howns.
    rewrite Howns. unfold attempt. by rewrite Hcommit. }
  rewrite Hdb'. repeat split; try done.
  set (event' := mkEvent (event_ngo_id event) (event_max_volunteers event)
                         (negb (is_active event))).
  assert (owns (toggle_event db event_id event) u event_id event') as Howns'.
  { split; [done|]. exists ngo. repeat split; try done.
    unfold toggle_event. simpl. by rewrite lookup_insert_eq. }
  unfold ngo_toggle_event_status.
  apply (owned_event_inr _ u event_id
           "Access denied. You can only modify your own events.") in Howns'.
  rewrite Howns'. unfold attempt. rewrite Hcommit. simpl.
  unfold toggle_event, set_events. simpl.
  rewrite insert_insert_eq, negb_involutive.
  destruct db as [vs ns es ts bs nb], event as [n m a]. simpl in *.
  f_equal. by apply insert_id.
Qed.

Lemma toggle_flips_one_flag_witness :
  (ngo_toggle_event_status no_fault
     (ngo_toggle_event_status no_fault (Sample.fresh 2) Sample.owner 1).2
     Sample.owner 1).2
  = Sample.fresh 2.
Proof.
  apply (toggle_flips_one_flag no_fault (Sample.fresh 2) Sample.owner 1
           (mkEvent 5 2 true)).
  - reflexivity.
  - split; [reflexivity|]. exists (mkNGO 5 9). repeat split; reflexivity.
Defined.

(** X11. Deleting an event as its owner removes the event, every slot of
    the event and every booking that names the event, and nothing else; a
    second request for the same event is answered 404.  When a storage call
    of the deletion raises, nothing is deleted. *)
Theorem delete_removes_event_with_slots_and_bookings fault db u event_id event :
  owns db u event_id event →
  let db' := (ngo_delete_event fault db u event_id).2 in
  ((∀ op, fault op = None) →
     events db' = delete event_id (events db)
     ∧ (∀ s slot,
          time_slots db' !! s = Some slot
          ↔ time_slots db !! s = Some slot ∧ slot_event_id slot ≠ event_id)
     ∧ (∀ b,
          b ∈ bookings db'
          ↔ b ∈ bookings db ∧ booking_event_id b ≠ event_id)
     ∧ ngo_delete_event fault db' u event_id = (Aborted 404, db'))
  ∧ ((∃ op, op ∈ [OpDeleteBookings; OpDeleteSlots; OpCommit]
            ∧ is_Some (fault op)) →
     db' = db).
Proof.
  intros Howns db'.
  pose proof Howns as (Hrole & ngo & Hngo & Hevent & Howner).
  apply (owned_event_inr db u event_id
           "Access denied. You can only delete your own events.") in Howns.
  split.
  - intros Hquiet.
    assert (db' = delete_cascade db event_id) as ->.
    { subst db'. unfold ngo_delete_event, attempt.
      by rewrite Howns, !Hquiet. }
    split; [done|]. split; [|split].
    + intros s slot. simpl. rewrite map_lookup_filter_Some. done.
    + intros b. simpl. rewrite list_elem_of_filter. tauto.
    + unfold ngo_delete_event, owned_event. simpl.
      rewrite decide_True by done.
      unfold ngo_of_user in *. simpl. rewrite Hngo.
      by rewrite lookup_delete_eq.
  - intros (op & Hop & [e He]). subst db'.
    unfold ngo_delete_event, attempt. rewrite Howns.
    repeat (apply elem_of_cons in Hop as [->|Hop]);
      [..|by apply elem_of_nil in Hop];
      rewrite ?He; repeat case_match; simplify_eq; done.
Qed.

Lemma delete_removes_event_with_slots_and_bookings_witness :
  ngo_delete_event no_fault
    (ngo_delete_event no_fault (Sample.fresh 2) Sample.owner 1).2
    Sample.owner 1
  = (Aborted 404,
     (ngo_delete_event no_fault (Sample.fresh 2) Sample.owner 1).2).
Proof.
  destruct (delete_removes_event_with_slots_and_bookings no_fault
              (Sample.fresh 2) Sample.owner 1 (mkEvent 5 2 true))
    as [Hdeleted _].
  - split; [reflexivity|]. exists (mkNGO 5 9). repeat split; reflexivity.
  - apply Hdeleted. intros op. reflexivity.
Defined.

(** The edit handler writes to the events table only. *)
Lemma ngo_edit_event_cases error_text fault db u event_id request :
  ∃ es, (ngo_edit_event error_text fault db u event_id request).2
        = set_events db es.
Proof.
  assert (db = set_events db (events db)) as Hsame by (by destruct db).
  unfold ngo_edit_event.
  repeat (case_match; simpl; eauto).
Qed.

(** X12. Editing an event never touches a slot or a booking.  The capacity
    that the form sets is stored on the event only: the slots created with
    the event keep the capacity they were given, and every booking call is
    answered after the edit as it would have been before. *)
Theorem edit_leaves_slots_and_bookings
    error_text fault fault' db u event_id request caller data :
  let db' := (ngo_edit_event error_text fault db u event_id request).2 in
  time_slots db' = time_slots db
  ∧ bookings db' = bookings db
  ∧ volunteers db' = volunteers db
  ∧ (book_slot fault' db' caller data).1 = (book_slot fault' db caller data).1.
Proof.
  intros db'. subst db'.
  destruct (ngo_edit_event_cases error_text fault db u event_id request)
    as [es ->].
  repeat split; try done.
  by rewrite BookSlotFacts.book_slot_ignores_events.
Qed.

End EventAdminFacts.

(** ** Creating events and their slots *)

Module CalendarFacts.
Import Ledger Http Storage BookSlot EventAdmin Pages EventForms.
Import BookSlotFacts CounterFacts.

(** *** The start times *)

Lemma event_days_empty start_date end_date :
  end_date < start_date → event_days start_date end_date = [].
Proof.
  intros Hlt. unfold event_days.
  by replace (Z.to_nat (end_date - start_date + 1)) with 0%nat by lia.
Qed.

Lemma event_days_cons start_date end_date :
  start_date ≤ end_date →
  event_days start_date end_date
    = start_date :: event_days (start_date + 1) end_date.
Proof.
  intros Hle. unfold event_days.
  replace (Z.to_nat (end_date - start_date + 1))
    with (S (Z.to_nat (end_date - (start_date + 1) + 1))) by lia.
  rewrite <- cons_seq, fmap_cons, <- fmap_S_seq, <- list_fmap_compose.
  f_equal; [simpl; lia|].
  apply list_fmap_ext. intros i x _. simpl. lia.
Qed.

Lemma slot_starts_empty start_date end_date :
  end_date < start_date → slot_starts start_date end_date = [].
Proof. intros Hlt. unfold slot_starts. by rewrite event_days_empty. Qed.

Lemma slot_starts_cons start_date end_date :
  start_date ≤ end_date →
  slot_starts start_date end_date
    = [24 * start_date + 9; 24 * start_date + 11;
       24 * start_date + 13; 24 * start_date + 15]
      ++ slot_starts (start_date + 1) end_date.
Proof.
  intros Hle. unfold slot_starts. by rewrite event_days_cons.
Qed.

(** Induction on the number of days that are left. *)
Lemma slot_starts_ind (P : Z → list Z → Prop) end_date :
  (∀ start_date, end_date < start_date → P start_date []) →
  (∀ start_date,
     start_date ≤ end_date →
     P (start_date + 1) (slot_starts (start_date + 1) end_date) →
     P start_date
       ([24 * start_date + 9; 24 * start_date + 11;
         24 * start_date + 13; 24 * start_date + 15]
        ++ slot_starts (start_date + 1) end_date)) →
  ∀ start_date, P start_date (slot_starts start_date end_date).
Proof.
  intros Hempty Hday start_date.
  remember (Z.to_nat (end_date - start_date + 1)) as n eqn:Hn.
  revert start_date Hn. induction n as [|n IH]; intros start_date Hn.
  - rewrite slot_starts_empty by lia. apply Hempty. lia.
  - rewrite slot_starts_cons by lia. apply Hday; [lia|]. apply IH. lia.
Qed.

Lemma length_slot_starts start_date end_date :
  Z.of_nat (length (slot_starts start_date end_date))
    = 4 * Z.max 0 (end_date - start_date + 1).
Proof.
  revert start_date.
  apply (slot_starts_ind
           (λ start_date starts,
              Z.of_nat (length starts)
                = 4 * Z.max 0 (end_date - start_date + 1))).
  - intros start_date Hlt. simpl. lia.
  - intros start_date Hle IH. rewrite length_app. simpl length. lia.
Qed.

Lemma slot_starts_lower_bound start_date end_date t :
  t ∈ slot_starts start_date end_date → 24 * start_date + 9 ≤ t.
Proof.
  revert start_date.
  apply (slot_starts_ind
           (λ start_date starts, t ∈ starts → 24 * start_date + 9 ≤ t)).
  - intros start_date _ Hin. by apply elem_of_nil in Hin.
  - intros start_date Hle IH Hin.
    apply elem_of_app in Hin as [Hin|Hin].
    + repeat (apply elem_of_cons in Hin as [->|Hin]; [lia|]).
      by apply elem_of_nil in Hin.
    + specialize (IH Hin). lia.
Qed.

(** Every slot starts at 9, 11, 13 or 15 o'clock of a day of the event. *)
Lemma elem_of_slot_starts start_date end_date t :
  t ∈ slot_starts start_date end_date →
  ∃ day hour,
    start_date ≤ day ≤ end_date ∧ hour ∈ slot_hours ∧ t = 24 * day + hour.
Proof.
  revert start_date.
  apply (slot_starts_ind
           (λ start_date starts,
              t ∈ starts →
              ∃ day hour,
                start_date ≤ day ≤ end_date
                ∧ hour ∈ slot_hours ∧ t = 24 * day + hour)).
  - intros start_date _ Hin. by apply elem_of_nil in Hin.
  - intros start_date Hle IH Hin.
    apply elem_of_app in Hin as [Hin|Hin].
    + unfold slot_hours.
      repeat (apply elem_of_cons in Hin as [->|Hin];
              [eexists start_date, _; split; [lia|];
               split; [|reflexivity]; set_solver|]).
      by apply elem_of_nil in Hin.
    + destruct (IH Hin) as (day & hour & Hday & Hhour & ->).
      exists day, hour. split; [lia|done].
Qed.

(** A slot ends before the next one starts. *)
Lemma slot_starts_spaced start_date end_date :
  StronglySorted (λ a b, a + 2 ≤ b) (slot_starts start_date end_date).
Proof.
  revert start_date.
  apply (slot_starts_ind (λ _ starts, StronglySorted (λ a b, a + 2 ≤ b) starts)).
  - intros. constructor.
  - intros start_date Hle IH.
    assert (Forall (λ t, 24 * start_date + 33 ≤ t)
              (slot_starts (start_date + 1) end_date)) as Hlater.
    { apply Forall_forall. intros t Ht.
      apply slot_starts_lower_bound in Ht. lia. }
    simpl. repeat (constructor; [|repeat constructor; try lia];
                   try (eapply Forall_impl; [exact Hlater|];
                        simpl; intros; lia)).
    done.
Qed.

(** *** The loop over the days *)

(** The loop goes through unless it comes to the last day that [datetime]
    has, and then gives the start times of all its days. *)
Lemma slot_loop_inr days current_date starts :
  slot_loop days current_date = inr starts →
  starts = slot_starts current_date (current_date + Z.of_nat days - 1).
Proof.
  revert current_date starts.
  induction days as [|days IH]; intros current_date starts; simpl.
  - intros [= <-]. by rewrite slot_starts_empty by lia.
  - unfold next_day. case_decide; [|done].
    destruct (slot_loop days (current_date + 1)) as [|later] eqn:Hlater;
      [done|].
    intros [= <-]. rewrite slot_starts_cons by lia.
    rewrite (IH _ _ Hlater).
    by replace (current_date + Z.of_nat (S days) - 1)
      with (current_date + 1 + Z.of_nat days - 1) by lia.
Qed.

Lemma slot_loop_inl days current_date e :
  slot_loop days current_date = inl e →
  e = date_out_of_range
  ∧ days ≠ 0%nat
  ∧ date_max < current_date + Z.of_nat days.
Proof.
  revert current_date.
  induction days as [|days IH]; intros current_date; simpl; [done|].
  unfold next_day. case_decide.
  - destruct (slot_loop days (current_date + 1)) as [e'|] eqn:Hlater;
      [|done].
    intros [= <-]. destruct (IH _ Hlater) as (-> & _ & Hmax).
    split; [done|]. split; [done|lia].
  - intros [= <-]. split; [done|]. split; [done|lia].
Qed.

Lemma slot_loop_overflows days current_date :
  days ≠ 0%nat → date_max < current_date + Z.of_nat days →
  slot_loop days current_date = inl date_out_of_range.
Proof.
  revert current_date.
  induction days as [|days IH]; intros current_date Hdays Hmax; [done|].
  simpl. unfold next_day. case_decide; [|done].
  rewrite IH; [done|lia..].
Qed.

(** The loop of an event: it overflows exactly when the event has a day
    and ends on the last day that [datetime] has or later. *)
Lemma slot_loop_of_dates start_date end_date :
  slot_loop (Z.to_nat (end_date - start_date + 1)) start_date
    = if decide (start_date ≤ end_date ∧ date_max ≤ end_date)
      then inl date_out_of_range
      else inr (slot_starts start_date end_date).
Proof.
  case_decide as Hover.
  - apply slot_loop_overflows; lia.
  - destruct (slot_loop _ start_date) as [e|starts] eqn:Hloop.
    + apply slot_loop_inl in Hloop as (_ & Hdays & Hmax). lia.
    + apply slot_loop_inr in Hloop as ->.
      destruct (decide (start_date ≤ end_date)).
      * do 2 f_equal. lia.
      * by rewrite !slot_starts_empty by lia.
Qed.

(** *** The rows *)

Lemma slot_rows_cons first_id event_id max t starts :
  slot_rows first_id event_id max (t :: starts)
    = (first_id, (mkTimeSlot event_id max 0 true, (t, t + 2)))
      :: slot_rows (first_id + 1) event_id max starts.
Proof.
  unfold slot_rows. rewrite imap_cons. f_equal.
  - f_equal. simpl. lia.
  - apply imap_ext. intros i x _. simpl. f_equal. lia.
Qed.

Lemma length_slot_rows first_id event_id max starts :
  length (slot_rows first_id event_id max starts) = length starts.
Proof. unfold slot_rows. by rewrite length_imap. Qed.

Lemma slot_rows_slots first_id event_id max starts k :
  (list_to_map ((λ row, (row.1, row.2.1))
                  <$> slot_rows first_id event_id max starts)
     : gmap Z TimeSlot) !! k
  = if decide (first_id ≤ k < first_id + Z.of_nat (length starts))
    then Some (mkTimeSlot event_id max 0 true) else None.
Proof.
  revert first_id. induction starts as [|t starts IH]; intros first_id.
  - simpl. rewrite lookup_empty. by rewrite decide_False by lia.
  - rewrite slot_rows_cons, fmap_cons. simpl.
    destruct (decide (k = first_id)) as [->|Hne].
    + rewrite lookup_insert_eq. by rewrite decide_True by lia.
    + rewrite lookup_insert_ne by done. rewrite IH.
      do 2 case_decide; try done; lia.
Qed.

Lemma slot_rows_times first_id event_id max starts k :
  (list_to_map ((λ row, (row.1, row.2.2))
                  <$> slot_rows first_id event_id max starts)
     : gmap Z (Z * Z)) !! k
  = if decide (first_id ≤ k)
    then (λ t, (t, t + 2)) <$> starts !! Z.to_nat (k - first_id)
    else None.
Proof.
  revert first_id. induction starts as [|t starts IH]; intros first_id.
  - simpl. rewrite lookup_empty. by case_decide.
  - rewrite slot_rows_cons, fmap_cons. simpl.
    destruct (decide (k = first_id)) as [->|Hne].
    + rewrite lookup_insert_eq. rewrite decide_True by lia.
      by replace (Z.to_nat (first_id - first_id)) with 0%nat by lia.
    + rewrite lookup_insert_ne by done. rewrite IH.
      do 2 case_decide; try done; try lia.
      by replace (Z.to_nat (k - first_id))
        with (S (Z.to_nat (k - (first_id + 1)))) by lia.
Qed.

Lemma StronglySorted_lookup_lt {A} (R : A → A → Prop) l i j a b :
  StronglySorted R l → l !! i = Some a → l !! j = Some b →
  (i < j)%nat → R a b.
Proof.
  intros Hsorted. revert i j.
  induction Hsorted as [|x l _ IH Hall]; intros i j Hi Hj Hlt; [done|].
  destruct j as [|j]; [lia|]. destruct i as [|i]; simpl in *.
  - simplify_eq. rewrite Forall_forall in Hall. apply Hall.
    by eapply list_elem_of_lookup_2.
  - eapply IH; [done..|lia].
Qed.

Lemma reserved_of_unissued_slot cal k :
  slot_ids_fresh cal → next_slot_id cal ≤ k →
  reserved k (bookings (cal_db cal)) = 0
  ∧ ∀ v, bookings_of (cal_db cal) v k = [].
Proof.
  intros [_ Hbookings] Hk. unfold reserved, active_bookings, bookings_of.
  induction Hbookings as [|b bs Hb _ [IH1 IH2]]; [done|].
  split.
  - rewrite filter_cons, decide_False; [done|]. intros [? _]. lia.
  - intros v. rewrite filter_cons, decide_False; [done|]. intros [_ ?]. lia.
Qed.

Section Forms.

Context (error_text : string → string)
  (commit_raises : CreateCommit → option string).

Local Abbreviation create := (ngo_create_event error_text commit_raises).
Local Abbreviation posted := (posted error_text).
Local Abbreviation starts_of data :=
  (slot_starts (data_start_date data) (data_end_date data)).

(** The dates of a form that was read are days that [datetime] has. *)
Lemma read_form_dates form data :
  read_form error_text form = inr data →
  date_min ≤ data_start_date data ≤ date_max
  ∧ date_min ≤ data_end_date data ≤ date_max.
Proof.
  assert (∀ value day, strptime value = Some day →
                       date_min ≤ day ≤ date_max) as Hrange.
  { intros [day'|] day; simpl; [|done]. case_decide; [|done].
    by intros [= <-]. }
  unfold read_form, field. intros Hform.
  destruct (form_title form); [|done].
  destruct (form_description form); [|done].
  destruct (form_location form); [|done].
  destruct (strptime (form_start_date form)) as [start_date|] eqn:Hstart;
    [|done].
  destruct (strptime (form_end_date form)) as [end_date|] eqn:Hend; [|done].
  destruct (form_category form); [|done].
  destruct (form_max_volunteers form); [|done].
  simplify_eq. simpl. eauto.
Qed.

Lemma create_committed cal u ngo form data :
  posted cal u ngo form data →
  commit_raises CommitEvent = None → commit_raises CommitSlots = None →
  data_end_date data < date_max →
  create cal u (Some form)
    = (mkAnswer [("Event created successfully!", "success")]
                (Redirect "ngo_events"),
       add_slots (add_event cal ngo data) (next_event_id cal)
         (data_max_volunteers data) (starts_of data)).
Proof.
  intros (Hrole & Hngo & Hform) Hc1 Hc2 Hend. unfold ngo_create_event.
  rewrite decide_True by done. rewrite Hngo, Hform, Hc1.
  rewrite slot_loop_of_dates, decide_False by lia. by rewrite Hc2.
Qed.

(** On the last day that [datetime] has the loop raises after the event is
    committed. *)
Lemma create_overflows cal u ngo form data :
  posted cal u ngo form data →
  commit_raises CommitEvent = None →
  data_end_date data = date_max →
  create cal u (Some form)
    = (mkAnswer [("Error creating event: " +:+ date_out_of_range, "error")]
                (Render "ngo/create_event.html"),
       add_event cal ngo data).
Proof.
  intros (Hrole & Hngo & Hform) Hc1 Hend. unfold ngo_create_event.
  rewrite decide_True by done. rewrite Hngo, Hform, Hc1.
  destruct (read_form_dates form data Hform) as [Hstart _].
  by rewrite slot_loop_of_dates, decide_True by lia.
Qed.

Lemma next_slot_id_add_slots cal event_id data :
  next_slot_id (add_slots cal event_id (data_max_volunteers data)
                  (starts_of data))
  = next_slot_id cal + 4 * day_count data.
Proof.
  unfold add_slots, day_count. cbn [next_slot_id].
  rewrite length_slot_rows, length_slot_starts. done.
Qed.

Lemma add_slots_lookup cal event_id data k :
  slot_ids_fresh cal →
  time_slots (cal_db (add_slots cal event_id (data_max_volunteers data)
                        (starts_of data))) !! k
    = if decide (next_slot_id cal ≤ k < next_slot_id cal + 4 * day_count data)
      then Some (mkTimeSlot event_id (data_max_volunteers data) 0 true)
      else time_slots (cal_db cal) !! k.
Proof.
  intros [Hfresh _]. unfold add_slots, day_count. simpl.
  pose proof (slot_rows_slots (next_slot_id cal) event_id
                (data_max_volunteers data) (starts_of data) k)
    as Hrows.
  rewrite length_slot_starts in Hrows.
  case_decide as Hrange.
  - by apply lookup_union_Some_l.
  - by rewrite lookup_union_r.
Qed.

Lemma add_slots_times cal event_id data k :
  slot_ids_fresh cal → next_slot_id cal ≤ k →
  slot_times (add_slots cal event_id (data_max_volunteers data)
                (starts_of data)) !! k
    = (λ t, (t, t + 2))
        <$> starts_of data !! Z.to_nat (k - next_slot_id cal).
Proof.
  intros [Hfresh _] Hk. unfold add_slots. cbn [slot_times].
  pose proof (slot_rows_times (next_slot_id cal) event_id
                (data_max_volunteers data) (starts_of data) k)
    as Hrows.
  rewrite decide_True in Hrows by done.
  destruct (starts_of data !! Z.to_nat (k - next_slot_id cal))
    as [t|] eqn:Ht.
  - by apply lookup_union_Some_l.
  - rewrite lookup_union_r by done. by destruct (Hfresh k Hk).
Qed.

(** X13. A successful creation stores the event, active and owned by the
    NGO of the user, and adds four slots for every day from the start date
    to the end date: an end date before the start date gives an event
    without slots.  Every new slot is open, has the capacity of the form and
    a counter of zero; the slots that were there before stay as they are.
    The creation goes through when neither commit raises and the event ends
    before 9999-12-31. *)
Theorem create_event_adds_four_slots_a_day cal u ngo form data :
  posted cal u ngo form data →
  commit_raises CommitEvent = None → commit_raises CommitSlots = None →
  data_end_date data < date_max →
  slot_ids_fresh cal →
  let cal' := (create cal u (Some form)).2 in
  (create cal u (Some form)).1
    = mkAnswer [("Event created successfully!", "success")]
               (Redirect "ngo_events")
  ∧ events (cal_db cal')
    = <[next_event_id cal :=
          mkEvent (ngo_id ngo) (data_max_volunteers data) true]>
        (events (cal_db cal))
  ∧ next_slot_id cal' = next_slot_id cal + 4 * day_count data
  ∧ (∀ k,
       time_slots (cal_db cal') !! k
       = if decide (next_slot_id cal ≤ k
                    < next_slot_id cal + 4 * day_count data)
         then Some (mkTimeSlot (next_event_id cal)
                               (data_max_volunteers data) 0 true)
         else time_slots (cal_db cal) !! k)
  ∧ bookings (cal_db cal') = bookings (cal_db cal)
  ∧ slot_ids_fresh cal'.
Proof.
  intros Hposted Hc1 Hc2 Hend Hfresh cal'. subst cal'.
  rewrite (create_committed cal u ngo form data Hposted Hc1 Hc2 Hend).
  cbn [fst snd]. split; [done|].
  assert (slot_ids_fresh (add_event cal ngo data)) as Hfresh1 by done.
  pose proof (next_slot_id_add_slots (add_event cal ngo data)
                (next_event_id cal) data) as Hnext.
  cbn [next_slot_id add_event] in Hnext.
  split; [done|]. split; [exact Hnext|].
  split; [intros k; by rewrite add_slots_lookup|].
  split; [done|].
  split.
  - intros k Hk. rewrite Hnext in Hk.
    assert (0 ≤ day_count data) by (unfold day_count; lia).
    rewrite add_slots_lookup by done. cbn [next_slot_id add_event].
    rewrite decide_False by lia.
    destruct Hfresh as [Hfresh _]. destruct (Hfresh k) as [Hslot Htime];
      [lia|].
    split; [done|].
    rewrite add_slots_times by (done || (cbn [next_slot_id add_event]; lia)).
    cbn [next_slot_id add_event].
    rewrite lookup_ge_None_2; [done|].
    pose proof (length_slot_starts (data_start_date data)
                  (data_end_date data)) as Hlen.
    unfold day_count in *. lia.
  - rewrite Hnext. destruct Hfresh as [_ Hbookings].
    assert (0 ≤ day_count data) by (unfold day_count; lia).
    eapply Forall_impl; [exact Hbookings|]. simpl. intros b Hb. lia.
Qed.

(** X14. The slots that a creation adds lie on the days of the event: each
    of them starts at 9, 11, 13 or 15 o'clock of a day from the start date
    to the end date and lasts two hours, and no two of them overlap: in the
    order of their identifiers each slot ends before the next one starts. *)
Theorem created_slots_do_not_overlap cal u ngo form data k1 k2 w1 w2 :
  posted cal u ngo form data →
  commit_raises CommitEvent = None → commit_raises CommitSlots = None →
  slot_ids_fresh cal →
  let cal' := (create cal u (Some form)).2 in
  next_slot_id cal ≤ k1 < k2 →
  slot_times cal' !! k1 = Some w1 →
  slot_times cal' !! k2 = Some w2 →
  w1.2 = w1.1 + 2
  ∧ w1.2 ≤ w2.1
  ∧ ∃ day hour,
      data_start_date data ≤ day ≤ data_end_date data
      ∧ hour ∈ slot_hours
      ∧ w1.1 = 24 * day + hour.
Proof.
  intros Hposted Hc1 Hc2 Hfresh cal' Hk. subst cal'.
  destruct (decide (data_end_date data < date_max)) as [Hend|Hend].
  - rewrite (create_committed cal u ngo form data Hposted Hc1 Hc2 Hend).
    cbn [snd].
    assert (slot_ids_fresh (add_event cal ngo data)) as Hfresh1 by done.
    rewrite !add_slots_times
      by (done || (cbn [next_slot_id add_event]; lia)).
    cbn [next_slot_id add_event].
    intros Hw1 Hw2.
    apply fmap_Some in Hw1 as (t1 & Ht1 & ->).
    apply fmap_Some in Hw2 as (t2 & Ht2 & ->).
    cbn [fst snd]. split; [done|]. split.
    + eapply (StronglySorted_lookup_lt (λ a b, a + 2 ≤ b));
        [apply slot_starts_spaced|exact Ht1|exact Ht2|lia].
    + eapply elem_of_slot_starts. by eapply list_elem_of_lookup_2.
  - (* the loop raised: no slot was added *)
    pose proof Hposted as (_ & _ & Hform).
    destruct (read_form_dates form data Hform) as [_ Hrange].
    rewrite (create_overflows cal u ngo form data Hposted Hc1) by lia.
    cbn [snd slot_times add_event]. intros Hw1 _.
    destruct Hfresh as [Hfresh _].
    destruct (Hfresh k1) as [_ Hnone]; [lia|congruence].
Qed.

(** X15. A creation that goes through keeps the counters exact and within
    capacity exactly when the capacity of the form is not negative: with a
    negative capacity and at least one day it adds slots whose counter,
    zero, exceeds their capacity. *)
Theorem create_event_keeps_counters_iff cal u ngo form data :
  posted cal u ngo form data →
  commit_raises CommitEvent = None → commit_raises CommitSlots = None →
  slot_ids_fresh cal →
  capacity_invariant (cal_db cal) →
  data_start_date data ≤ data_end_date data →
  data_end_date data < date_max →
  capacity_invariant (cal_db (create cal u (Some form)).2)
  ↔ 0 ≤ data_max_volunteers data.
Proof.
  intros Hposted Hc1 Hc2 Hfresh Hinv Hdays Hend.
  rewrite (create_committed cal u ngo form data Hposted Hc1 Hc2 Hend).
  cbn [snd].
  assert (slot_ids_fresh (add_event cal ngo data)) as Hfresh1 by done.
  assert (0 < day_count data) as Hcount by (unfold day_count; lia).
  split.
  - intros Hinv'.
    destruct (Hinv' (next_slot_id cal)
                (mkTimeSlot (next_event_id cal)
                            (data_max_volunteers data) 0 true))
      as [_ Hcap]; [|done].
    rewrite add_slots_lookup by done. cbn [next_slot_id add_event].
    by rewrite decide_True by lia.
  - intros Hmax s slot Hslot.
    rewrite add_slots_lookup in Hslot by done.
    cbn [next_slot_id add_event cal_db] in Hslot.
    case_decide as Hrange.
    + simplify_eq. split; [|done]. simpl.
      destruct (reserved_of_unissued_slot cal s Hfresh) as [-> _];
        [lia|done].
    + by apply Hinv.
Qed.

(** X16. Creation is not one transaction.  When the commit of the slots
    raises, or when the event ends on 9999-12-31, where the loop over the
    days raises, the request is answered "Error creating event", but the
    event, committed before, stays in the database, without a single slot;
    when the commit of the event raises, nothing is written. *)
Theorem create_event_can_leave_event_without_slots cal u ngo form data e :
  posted cal u ngo form data →
  ((commit_raises CommitEvent = None
    ∧ (data_end_date data = date_max ∨ commit_raises CommitSlots = Some e)) →
     create cal u (Some form)
       = (mkAnswer
            [("Error creating event: "
                +:+ (if decide (data_end_date data = date_max)
                     then date_out_of_range else e), "error")]
            (Render "ngo/create_event.html"),
          add_event cal ngo data)
     ∧ events (cal_db (add_event cal ngo data)) !! next_event_id cal
       = Some (mkEvent (ngo_id ngo) (data_max_volunteers data) true)
     ∧ time_slots (cal_db (add_event cal ngo data))
       = time_slots (cal_db cal))
  ∧ (commit_raises CommitEvent = Some e →
     create cal u (Some form)
       = (mkAnswer [("Error creating event: " +:+ e, "error")]
                   (Render "ngo/create_event.html"), cal)).
Proof.
  intros Hposted. pose proof Hposted as (Hrole & Hngo & Hform). split.
  - intros [Hc1 Hcause].
    split; [|split; [simpl; by rewrite lookup_insert_eq|done]].
    case_decide as Hend;
      [by apply create_overflows|].
    destruct Hcause as [?|Hc2]; [done|].
    destruct (read_form_dates form data Hform) as [_ Hrange].
    unfold ngo_create_event.
    rewrite decide_True by done. rewrite Hngo, Hform, Hc1.
    rewrite slot_loop_of_dates, decide_False by lia. by rewrite Hc2.
  - intros Hc1. unfold ngo_create_event.
    rewrite decide_True by done. by rewrite Hngo, Hform, Hc1.
Qed.

End Forms.

Lemma sample_calendar_fresh : slot_ids_fresh sample_calendar.
Proof.
  split; [|constructor]. intros k Hk. simpl in *.
  split; [|apply lookup_empty].
  rewrite !lookup_insert_ne by lia. apply lookup_empty.
Defined.

Lemma sample_posted start_date end_date max :
  date_min ≤ start_date ≤ date_max → date_min ≤ end_date ≤ date_max →
  posted no_error_text sample_calendar Sample.owner (mkNGO 5 9)
    (sample_form start_date end_date max)
    (mkEventData start_date end_date max).
Proof.
  intros Hstart Hend. split; [reflexivity|]. split; [reflexivity|].
  unfold read_form, sample_form, strptime. simpl.
  by rewrite !decide_True by done.
Defined.

Lemma create_event_adds_four_slots_a_day_witness :
  next_slot_id
    (ngo_create_event no_error_text commits sample_calendar Sample.owner
       (Some (sample_form 100 101 5))).2
  = 21 + 4 * day_count (mkEventData 100 101 5).
Proof.
  destruct (create_event_adds_four_slots_a_day no_error_text commits
              sample_calendar Sample.owner (mkNGO 5 9)
              (sample_form 100 101 5) (mkEventData 100 101 5))
    as (_ & _ & Hnext & _).
  - apply sample_posted; unfold date_min, date_max; lia.
  - reflexivity.
  - reflexivity.
  - unfold date_max. simpl. lia.
  - apply sample_calendar_fresh.
  - exact Hnext.
Defined.

Lemma created_slots_do_not_overlap_witness :
  (2409, 2411).2 = (2409, 2411).1 + 2
  ∧ (2409, 2411).2 ≤ (2411, 2413).1
  ∧ ∃ day hour,
      100 ≤ day ≤ 101 ∧ hour ∈ slot_hours ∧ (2409, 2411).1 = 24 * day + hour.
Proof.
  apply (created_slots_do_not_overlap no_error_text commits sample_calendar
           Sample.owner (mkNGO 5 9) (sample_form 100 101 5)
           (mkEventData 100 101 5) 21 22 (2409, 2411) (2411, 2413)).
  - apply sample_posted; unfold date_min, date_max; lia.
  - reflexivity.
  - reflexivity.
  - apply sample_calendar_fresh.
  - simpl. lia.
  - reflexivity.
  - reflexivity.
Defined.

Lemma create_event_keeps_counters_iff_witness :
  capacity_invariant
    (cal_db (ngo_create_event no_error_text commits sample_calendar
               Sample.owner (Some (sample_form 100 101 (-1)))).2)
  ↔ 0 ≤ -1.
Proof.
  apply (create_event_keeps_counters_iff no_error_text commits
           sample_calendar Sample.owner (mkNGO 5 9)
           (sample_form 100 101 (-1)) (mkEventData 100 101 (-1))).
  - apply sample_posted; unfold date_min, date_max; lia.
  - reflexivity.
  - reflexivity.
  - apply sample_calendar_fresh.
  - apply CounterClaims.fresh_invariant. lia.
  - simpl. lia.
  - unfold date_max. simpl. lia.
Defined.

(** An event of one day, 9999-12-31, on a database whose commits go
    through. *)
Lemma create_event_can_leave_event_without_slots_witness :
  ngo_create_event no_error_text commits sample_calendar
    Sample.owner (Some (sample_form 3652059 3652059 5))
  = (mkAnswer [("Error creating event: date value out of range", "error")]
              (Render "ngo/create_event.html"),
     add_event sample_calendar (mkNGO 5 9) (mkEventData 3652059 3652059 5))
  ∧ ngo_create_event no_error_text second_commit_fails sample_calendar
      Sample.owner (Some (sample_form 100 101 5))
    = (mkAnswer [("Error creating event: gone away", "error")]
                (Render "ngo/create_event.html"),
       add_event sample_calendar (mkNGO 5 9) (mkEventData 100 101 5)).
Proof.
  split.
  - destruct (create_event_can_leave_event_without_slots no_error_text
                commits sample_calendar Sample.owner (mkNGO 5 9)
                (sample_form 3652059 3652059 5)
                (mkEventData 3652059 3652059 5) "not raised")
      as [Hloop _].
    + apply sample_posted; unfold date_min, date_max; lia.
    + apply Hloop. split; [reflexivity|]. left. reflexivity.
  - destruct (create_event_can_leave_event_without_slots no_error_text
                second_commit_fails sample_calendar Sample.owner (mkNGO 5 9)
                (sample_form 100 101 5) (mkEventData 100 101 5) "gone away")
      as [Hsecond _].
    + apply sample_posted; unfold date_min, date_max; lia.
    + apply Hsecond. split; [reflexivity|]. right. reflexivity.
Defined.

End CalendarFacts.

(** ** Slots over sequences of requests *)

Module ServingFacts.
Import Ledger Http Storage BookSlot EventAdmin Pages EventForms.
Import BookSlotFacts CounterFacts EventAdminFacts CalendarFacts.

Lemma ngo_toggle_event_status_cases fault db u event_id :
  ∃ es, (ngo_toggle_event_status fault db u event_id).2 = set_events db es.
Proof.
  assert (db = set_events db (events db)) as Hsame by (by destruct db).
  unfold ngo_toggle_event_status, attempt.
  destruct (owned_event _ _ _ _) as [out|event]; [by eauto|].
  destruct (fault OpCommit); [by eauto|].
  unfold toggle_event. eauto.
Qed.

Section Serving.

Context (error_text : string → string)
  (commit_raises : CreateCommit → option string)
  (fault : StorageOp → option string).

Local Abbreviation serve := (serve error_text commit_raises fault).
Local Abbreviation serve_all := (serve_all error_text commit_raises fault).

Lemma read_form_max_volunteers form data :
  read_form error_text form = inr data →
  form_max_volunteers form = Some (data_max_volunteers data).
Proof.
  unfold read_form, field. intros Hform.
  destruct (form_title form); [|done].
  destruct (form_description form); [|done].
  destruct (form_location form); [|done].
  destruct (strptime (form_start_date form)); [|done].
  destruct (strptime (form_end_date form)); [|done].
  destruct (form_category form); [|done].
  destruct (form_max_volunteers form); [|done].
  by simplify_eq.
Qed.

Lemma ngo_create_event_cases cal u form :
  let cal' := (ngo_create_event error_text commit_raises cal u (Some form)).2 in
  cal' = cal
  ∨ (∃ ngo data, cal' = add_event cal ngo data)
  ∨ (∃ ngo data,
       form_max_volunteers form = Some (data_max_volunteers data)
       ∧ cal' = add_slots (add_event cal ngo data) (next_event_id cal)
                  (data_max_volunteers data)
                  (slot_starts (data_start_date data) (data_end_date data))).
Proof.
  unfold ngo_create_event.
  case_decide; [|by left].
  destruct (ngo_of_user _ _) as [ngo|]; [|by left].
  destruct (read_form error_text form) as [e|data] eqn:Hform; [by left|].
  destruct (commit_raises CommitEvent); [by left|].
  destruct (slot_loop _ _) as [e|starts] eqn:Hloop; [by eauto|].
  destruct (commit_raises CommitSlots); [by eauto|].
  right. right. exists ngo, data.
  split; [by apply read_form_max_volunteers|]. simpl.
  rewrite slot_loop_of_dates in Hloop.
  case_decide; by simplify_eq.
Qed.

(** One request: every slot that is there afterwards was there before, or
    was created by the request. *)
Lemma serve_slots cal request s slot' :
  slot_ids_fresh cal →
  time_slots (cal_db (serve cal request)) !! s = Some slot' →
  (∃ slot, time_slots (cal_db cal) !! s = Some slot ∧ grown slot slot')
  ∨ (next_slot_id cal ≤ s
     ∧ is_available slot' = true
     ∧ current_volunteers slot' = 0
     ∧ ∃ u form,
         request = CreateEvent u form
         ∧ form_max_volunteers form = Some (max_volunteers slot')).
Proof.
  intros Hfresh Hslot.
  assert (∀ slot, grown slot slot) as Hrefl by (by intros ?).
  destruct request as [u data|u e|u e|u e form|u form]; simpl in Hslot.
  - rewrite book_slot_keeps_db in Hslot. eauto.
  - destruct (ngo_delete_event_cases fault (cal_db cal) u e) as [Hd|Hd];
      rewrite Hd in Hslot; [by eauto|].
    simpl in Hslot. apply map_lookup_filter_Some in Hslot as [Hslot _].
    eauto.
  - destruct (ngo_toggle_event_status_cases fault (cal_db cal) u e)
      as [es Ht].
    rewrite Ht in Hslot. eauto.
  - destruct (ngo_edit_event_cases error_text fault (cal_db cal) u e
                (Some form)) as [es He].
    rewrite He in Hslot. eauto.
  - destruct (ngo_create_event_cases cal u form)
      as [Hc|[(ngo & data & Hc)|(ngo & data & Hmax & Hc)]];
      rewrite Hc in Hslot; [by eauto..|].
    rewrite add_slots_lookup in Hslot by done.
    cbn [next_slot_id add_event cal_db] in Hslot.
    case_decide as Hrange; [|by eauto].
    simplify_eq. right. simpl. repeat split; try done; try lia.
    eauto.
Qed.

Lemma serve_keeps_slot_ids_fresh cal request :
  slot_ids_fresh cal →
  slot_ids_fresh (serve cal request)
  ∧ next_slot_id cal ≤ next_slot_id (serve cal request).
Proof.
  intros Hfresh. pose proof Hfresh as [Hslots Hbookings].
  assert (∀ es, slot_ids_fresh (with_db cal (set_events (cal_db cal) es)))
    as Hevents by done.
  destruct request as [u data|u e|u e|u e form|u form]; simpl.
  - split; [|done]. rewrite book_slot_keeps_db. by destruct cal.
  - split; [|done].
    destruct (ngo_delete_event_cases fault (cal_db cal) u e) as [Hd|Hd];
      rewrite Hd; [by destruct cal|].
    split; simpl.
    + intros k Hk. destruct (Hslots k Hk) as [Hnone Htime].
      split; [|done]. apply map_lookup_filter_None. by left.
    + apply Forall_forall. intros b [_ Hb]%list_elem_of_filter.
      rewrite Forall_forall in Hbookings. by apply Hbookings.
  - split; [|done].
    destruct (ngo_toggle_event_status_cases fault (cal_db cal) u e)
      as [es ->]. done.
  - split; [|done].
    destruct (ngo_edit_event_cases error_text fault (cal_db cal) u e
                (Some form)) as [es ->]. done.
  - destruct (ngo_create_event_cases cal u form)
      as [Hc|[(ngo & data & Hc)|(ngo & data & Hmax & Hc)]]; rewrite Hc.
    + done.
    + done.
    + assert (slot_ids_fresh (add_event cal ngo data)) as Hfresh1 by done.
      assert (0 ≤ day_count data) as Hcount by (unfold day_count; lia).
      pose proof (next_slot_id_add_slots (add_event cal ngo data)
                    (next_event_id cal) data) as Hnext.
      cbn [next_slot_id add_event] in Hnext.
      split; [|lia]. split.
      * intros k Hk. rewrite Hnext in Hk.
        rewrite add_slots_lookup by done. cbn [next_slot_id add_event].
        rewrite decide_False by lia.
        rewrite add_slots_times by (done || (cbn; lia)).
        cbn [next_slot_id add_event cal_db].
        destruct (Hslots k) as [Hnone Htime]; [lia|].
        split; [done|].
        rewrite lookup_ge_None_2; [done|].
        pose proof (length_slot_starts (data_start_date data)
                      (data_end_date data)) as Hlen.
        unfold day_count in *. lia.
      * rewrite Hnext. eapply Forall_impl; [exact Hbookings|].
        simpl. intros b Hb. lia.
Qed.

Lemma serve_all_snoc cal requests request :
  serve_all cal (requests ++ [request])
    = serve (serve_all cal requests) request.
Proof. unfold EventForms.serve_all. by rewrite foldl_app. Qed.

Lemma serve_all_keeps_slot_ids_fresh cal requests :
  slot_ids_fresh cal →
  slot_ids_fresh (serve_all cal requests)
  ∧ next_slot_id cal ≤ next_slot_id (serve_all cal requests).
Proof.
  intros Hfresh. induction requests as [|request requests IH] using rev_ind;
    [done|].
  destruct IH as [IHfresh IHnext]. rewrite serve_all_snoc.
  destruct (serve_keeps_slot_ids_fresh (serve_all cal requests) request
              IHfresh) as [Hfresh' Hnext'].
  split; [done|lia].
Qed.

Lemma grown_trans slot1 slot2 slot3 :
  grown slot1 slot2 → grown slot2 slot3 → grown slot1 slot3.
Proof.
  intros (He1 & Hm1 & Hc1 & Ho1) (He2 & Hm2 & Hc2 & Ho2).
  repeat split; [congruence|congruence|lia|auto].
Qed.

(** X17. No request that the handlers serve gives a place back or opens a
    slot again.  Over any sequence of booking, deleting, toggling, editing
    and creating requests, and whatever the storage layer does, a slot that
    is still there afterwards has the event and the capacity it had, a
    counter that is not lower, and is open only if it was open before: a
    slot that was closed stays closed. *)
Theorem served_slots_only_grow cal requests s slot slot' :
  slot_ids_fresh cal →
  time_slots (cal_db cal) !! s = Some slot →
  time_slots (cal_db (serve_all cal requests)) !! s = Some slot' →
  grown slot slot'.
Proof.
  intros Hfresh Hslot. revert slot'.
  induction requests as [|request requests IH] using rev_ind; intros slot'.
  - simpl. intros Hslot'. simplify_eq. done.
  - rewrite serve_all_snoc. intros Hslot'.
    destruct (serve_all_keeps_slot_ids_fresh cal requests Hfresh)
      as [Hfresh1 Hnext1].
    destruct (serve_slots (serve_all cal requests) request s slot' Hfresh1
                Hslot')
      as [(slot1 & Hslot1 & Hgrown)|(Hnew & _)].
    + eapply grown_trans; [by apply IH|done].
    + exfalso. destruct Hfresh as [Hslots _].
      destruct (Hslots s) as [Hnone _]; [lia|congruence].
Qed.

Lemma serve_keeps_open_slots_have_room cal request :
  slot_ids_fresh cal → has_capacity request →
  open_slots_have_room (cal_db cal) →
  open_slots_have_room (cal_db (serve cal request)).
Proof.
  intros Hfresh Hcap Hroom s slot' Hslot' Hopen'.
  destruct request as [u data|u e|u e|u e form|u form]; simpl in Hslot'.
  - rewrite book_slot_keeps_db in Hslot'. by eapply Hroom.
  - destruct (ngo_delete_event_cases fault (cal_db cal) u e) as [Hd|Hd];
      rewrite Hd in Hslot'; [by eapply Hroom|].
    simpl in Hslot'. apply map_lookup_filter_Some in Hslot' as [Hslot' _].
    by eapply Hroom.
  - destruct (ngo_toggle_event_status_cases fault (cal_db cal) u e)
      as [es Ht].
    rewrite Ht in Hslot'. by eapply Hroom.
  - destruct (ngo_edit_event_cases error_text fault (cal_db cal) u e
                (Some form)) as [es He].
    rewrite He in Hslot'. by eapply Hroom.
  - destruct (ngo_create_event_cases cal u form)
      as [Hc|[(ngo & data & Hc)|(ngo & data & Hmax & Hc)]];
      rewrite Hc in Hslot'; [by eapply Hroom..|].
    rewrite add_slots_lookup in Hslot' by done.
    cbn [next_slot_id add_event cal_db] in Hslot'.
    case_decide as Hrange; [|by eapply Hroom].
    simplify_eq. simpl. specialize (Hcap _ Hmax). lia.
Qed.

(** X18. The handlers produce a slot that is offered although it has no
    place left in one way only: by creating an event with a capacity below
    one.  From a database in which every open slot has room, and over
    requests that create events with at least one place, every open slot
    still has room, and no booking call is answered "Slot is full". *)
Theorem slot_is_full_needs_capacity_below_one
    cal requests fault' u data :
  slot_ids_fresh cal →
  open_slots_have_room (cal_db cal) →
  Forall has_capacity requests →
  open_slots_have_room (cal_db (serve_all cal requests))
  ∧ (book_slot fault' (cal_db (serve_all cal requests)) u data).1
    ≠ slot_is_full.
Proof.
  intros Hfresh Hroom Hcap.
  assert (open_slots_have_room (cal_db (serve_all cal requests))) as Hroom'.
  { revert Hcap.
    induction requests as [|request requests IH] using rev_ind;
      intros Hcap; [done|].
    apply Forall_app in Hcap as [Hcap Hc].
    rewrite Forall_singleton in Hc.
    rewrite serve_all_snoc.
    apply serve_keeps_open_slots_have_room;
      [by apply serve_all_keeps_slot_ids_fresh|exact Hc|by apply IH]. }
  split; [done|]. intros Hfull.
  apply (book_slot_never_enters_block fault'
           (cal_db (serve_all cal requests)) u data).
  rewrite Hfull. set_solver.
Qed.

End Serving.

Lemma sample_open_slots_have_room :
  open_slots_have_room (cal_db sample_calendar).
Proof.
  intros s slot Hslot _. simpl in Hslot.
  apply lookup_insert_Some in Hslot as [[_ <-]|[_ Hslot]]; [simpl; lia|].
  apply lookup_insert_Some in Hslot as [[_ <-]|[_ Hslot]]; [simpl; lia|].
  by rewrite lookup_empty in Hslot.
Defined.

(** Slot 10 over two booking calls, an edit that raises the capacity of
    the event, and a deactivation. *)
Lemma served_slots_only_grow_witness :
  grown (mkTimeSlot 1 2 0 true) (mkTimeSlot 1 2 0 true).
Proof.
  apply (served_slots_only_grow no_error_text commits no_fault
           sample_calendar
           [BookSlot Sample.alice (Sample.ask 10 1);
            EditEvent Sample.owner 1 (sample_form 100 101 50);
            BookSlot Sample.bob (Sample.ask 10 1);
            ToggleEvent Sample.owner 1]
           10).
  - apply sample_calendar_fresh.
  - reflexivity.
  - reflexivity.
Defined.

Lemma slot_is_full_needs_capacity_below_one_witness :
  open_slots_have_room
    (cal_db
       (serve_all no_error_text commits no_fault sample_calendar
          [CreateEvent Sample.owner (sample_form 100 100 1);
           BookSlot Sample.alice (Sample.ask 21 3)]))
  ∧ (book_slot no_fault
       (cal_db
          (serve_all no_error_text commits no_fault sample_calendar
             [CreateEvent Sample.owner (sample_form 100 100 1);
              BookSlot Sample.alice (Sample.ask 21 3)]))
       Sample.bob (Sample.ask 21 3)).1
    ≠ slot_is_full.
Proof.
  apply (slot_is_full_needs_capacity_below_one no_error_text commits no_fault
           sample_calendar
           [CreateEvent Sample.owner (sample_form 100 100 1);
            BookSlot Sample.alice (Sample.ask 21 3)]
           no_fault Sample.bob (Sample.ask 21 3)).
  - apply sample_calendar_fresh.
  - apply sample_open_slots_have_room.
  - repeat constructor. simpl. intros max [= <-]. lia.
Defined.

End ServingFacts.

(** ** One booking per claimant and slot *)

Module DuplicateFacts.
Import Ledger Http Storage BookSlot EventAdmin Pages EventForms Concurrent.
Import BookSlotFacts CounterFacts ConcurrentFacts EventAdminFacts.
Import CalendarFacts ServingFacts.

Lemma length_filter_of_filter {A} (P Q : A → Prop)
    `{!∀ x, Decision (P x), !∀ x, Decision (Q x)} (l : list A) :
  (length (filter P (filter Q l)) ≤ length (filter P l))%nat.
Proof.
  induction l as [|x l IH]; [done|].
  rewrite !filter_cons.
  destruct (decide (Q x)), (decide (P x));
    rewrite ?filter_cons, ?decide_True, ?decide_False by done; simpl; lia.
Qed.

Section Serving.

Context (error_text : string → string)
  (commit_raises : CreateCommit → option string)
  (fault : StorageOp → option string).

Local Abbreviation serve := (serve error_text commit_raises fault).
Local Abbreviation serve_all := (serve_all error_text commit_raises fault).

Lemma serve_keeps_one_booking cal request :
  one_booking_per_claimant (cal_db cal) →
  one_booking_per_claimant (cal_db (serve cal request)).
Proof.
  intros Hone.
  destruct request as [u data|u e|u e|u e form|u form]; simpl.
  - by rewrite book_slot_keeps_db.
  - destruct (ngo_delete_event_cases fault (cal_db cal) u e) as [-> | ->];
      [done|].
    intros v s. specialize (Hone v s). unfold bookings_of in *. simpl.
    etrans; [apply length_filter_of_filter|exact Hone].
  - destruct (ngo_toggle_event_status_cases fault (cal_db cal) u e)
      as [es ->]. done.
  - destruct (ngo_edit_event_cases error_text fault (cal_db cal) u e
                (Some form)) as [es ->]. done.
  - destruct (ngo_create_event_cases error_text commit_raises cal u form)
      as [Hc|[(ngo & data & Hc)|(ngo & data & Hmax & Hc)]]; rewrite Hc; done.
Qed.

(** X21. Served one after the other, the requests never give a claimant a
    second booking on a slot: if no claimant holds two bookings on one slot,
    the same is true after any sequence of booking, deleting, toggling,
    editing and creating requests, whatever the storage layer does. *)
Theorem requests_in_sequence_never_double_book cal requests :
  one_booking_per_claimant (cal_db cal) →
  one_booking_per_claimant (cal_db (serve_all cal requests)).
Proof.
  intros Hone. induction requests as [|request requests IH] using rev_ind;
    [done|].
  unfold EventForms.serve_all. rewrite foldl_app. simpl.
  by apply serve_keeps_one_booking.
Qed.

End Serving.

Lemma requests_in_sequence_never_double_book_witness :
  one_booking_per_claimant
    (cal_db
       (serve_all no_error_text commits no_fault sample_calendar
          [BookSlot Sample.alice (Sample.ask 10 1);
           BookSlot Sample.alice (Sample.ask 10 1)])).
Proof.
  apply (requests_in_sequence_never_double_book no_error_text commits
           no_fault sample_calendar
           [BookSlot Sample.alice (Sample.ask 10 1);
            BookSlot Sample.alice (Sample.ask 10 1)]).
  intros v s. simpl. lia.
Defined.

(** X22. Calls that are in flight together write nothing.  In every
    interleaving of the steps of any calls, and whatever the database
    raises, the ledger stays as it was when the calls arrived, and no call
    is answered with success: every call that passes the checks is answered
    with the exception of [db.session.begin()]. *)
Theorem calls_in_flight_never_write fault db requests db' calls' :
  rtc (step fault) (db, arrive requests) (db', calls') →
  db' = db
  ∧ (Answered booked ∉ calls')
  ∧ (∀ session v s e,
       Checked session v s e ∈ calls' →
       advance fault db' (Checked session v s e)
         = Some (db', Answered (booking_failed already_begun))).
Proof.
  intros Hrun.
  destruct (run_of_requests_keeps_db fault db requests db' calls' Hrun)
    as [-> Hhandled].
  rewrite Forall_forall in Hhandled.
  split; [done|]. split.
  - intros Hin. by apply (Hhandled _ Hin).
  - intros session v s e Hin. specialize (Hhandled _ Hin). simpl in Hhandled.
    subst session. done.
Qed.

Lemma calls_in_flight_never_write_witness :
  Sample.fresh 1 = Sample.fresh 1
  ∧ Answered booked
      ∉ [Answered (booking_failed already_begun);
         Answered (booking_failed already_begun)].
Proof.
  destruct (calls_in_flight_never_write no_fault (Sample.fresh 1)
              [(Sample.alice, Sample.ask 10 1); (Sample.bob, Sample.ask 10 1)]
              (Sample.fresh 1)
              [Answered (booking_failed already_begun);
               Answered (booking_failed already_begun)])
    as (Hdb & Hnone & _).
  - apply race_for_last_place.
  - split; [exact Hdb|exact Hnone].
Defined.

End DuplicateFacts.

(** ** Running the migration tool more than once *)

Module MigrationToolFacts.
Import Storage Migrations MigrationTools MigrationFacts.

(** *** The version of a table *)

Lemma foldl_max_spec (rows : list Row) a :
  let v := foldl (λ a r, a `max` row_version r) a rows in
  a ≤ v
  ∧ Forall (λ r, row_version r ≤ v) rows
  ∧ (v = a ∨ ∃ r, r ∈ rows ∧ row_version r = v).
Proof.
  revert a. induction rows as [|r rows IH]; intros a; simpl.
  - split; [lia|]. split; [constructor|by left].
  - destruct (IH (a `max` row_version r)) as (Hge & Hall & Hattained).
    split; [lia|]. split.
    + constructor; [lia|done].
    + destruct Hattained as [Heq|(r' & Hin & Heq)].
      * destruct (decide (row_version r ≤ a)).
        -- left. lia.
        -- right. exists r. split; [by left|lia].
      * right. exists r'. split; [by right|done].
Qed.

Lemma max_version_spec rows v :
  max_version rows = Some v ↔
    Forall (λ r, row_version r ≤ v) rows
    ∧ ∃ r, r ∈ rows ∧ row_version r = v.
Proof.
  destruct rows as [|r rows]; simpl.
  - split; [done|]. intros [_ (r & Hin & _)]. by apply elem_of_nil in Hin.
  - pose proof (foldl_max_spec rows (row_version r)) as (Hge & Hall & Hatt).
    simpl in *. split.
    + intros [= <-]. split; [by constructor|].
      destruct Hatt as [->|(r' & Hin & Heq)].
      * exists r. split; [by left|done].
      * exists r'. split; [by right|done].
    + intros [Hle (r' & Hin & Heq)]. f_equal.
      apply Forall_cons in Hle as [Hr Hle].
      assert (foldl (λ a r0, a `max` row_version r0) (row_version r) rows ≤ v).
      { destruct Hatt as [->|(r1 & Hin1 & <-)]; [done|].
        rewrite Forall_forall in Hle. by apply Hle. }
      apply elem_of_cons in Hin as [->|Hin]; [lia|].
      rewrite Forall_forall in Hall. specialize (Hall r' Hin). lia.
Qed.

Lemma current_of_bounds rows r : r ∈ rows → row_version r ≤ current_of rows.
Proof.
  intros Hin. unfold current_of.
  destruct (max_version rows) as [v|] eqn:Hmax.
  - apply max_version_spec in Hmax as [Hall _].
    rewrite Forall_forall in Hall. by apply Hall.
  - destruct rows; [by apply elem_of_nil in Hin|done].
Qed.

Lemma current_of_attained rows :
  rows ≠ [] → ∃ r, r ∈ rows ∧ row_version r = current_of rows.
Proof.
  intros Hne. unfold current_of.
  destruct (max_version rows) as [v|] eqn:Hmax.
  - by apply max_version_spec in Hmax as [_ Hatt].
  - by destruct rows.
Qed.

(** *** Filtering a sorted list *)

Lemma filter_none {A} (P : A → Prop) `{!∀ x, Decision (P x)} (l : list A) :
  Forall (λ x, ¬ P x) l → filter P l = [].
Proof.
  induction 1 as [|x l Hx _ IH]; [done|].
  by rewrite filter_cons, decide_False.
Qed.

Lemma filter_all {A} (P : A → Prop) `{!∀ x, Decision (P x)} (l : list A) :
  Forall P l → filter P l = l.
Proof.
  induction 1 as [|x l Hx _ IH]; [done|].
  by rewrite filter_cons, decide_True, IH.
Qed.

Lemma insert_by_version_front m ms :
  Forall (λ x, version m ≤ version x) ms → insert_by_version m ms = m :: ms.
Proof.
  destruct ms as [|x ms]; [done|]. intros [Hx _]%Forall_cons. simpl.
  by rewrite decide_True.
Qed.

Lemma filter_insert_by_version (P : Migration → Prop)
    `{!∀ m, Decision (P m)} m ms :
  ascending ms →
  filter P (insert_by_version m ms)
    = if decide (P m) then insert_by_version m (filter P ms)
      else filter P ms.
Proof.
  induction 1 as [|x ms Hsorted IH Hall]; simpl.
  - rewrite filter_cons, filter_nil. by destruct (decide (P m)).
  - destruct (decide (version m ≤ version x)) as [Hle|Hgt].
    + rewrite (filter_cons _ m). destruct (decide (P m)); [|done].
      symmetry. apply insert_by_version_front.
      apply Forall_forall. intros y [_ Hy]%list_elem_of_filter.
      apply elem_of_cons in Hy as [->|Hy]; [done|].
      rewrite Forall_forall in Hall. specialize (Hall y Hy). simpl in Hall.
      lia.
    + rewrite (filter_cons _ x), IH, (filter_cons _ x).
      destruct (decide (P m)), (decide (P x)); simpl; try done.
      by rewrite decide_False.
Qed.

(** Sorting and selecting commute: the sort is stable. *)
Lemma filter_sorted_by_version (P : Migration → Prop)
    `{!∀ m, Decision (P m)} ms :
  filter P (sorted_by_version ms) = sorted_by_version (filter P ms).
Proof.
  induction ms as [|m ms IH]; [done|].
  change (sorted_by_version (m :: ms))
    with (insert_by_version m (sorted_by_version ms)).
  rewrite filter_insert_by_version by apply sorted_by_version_ascending.
  rewrite filter_cons. destruct (decide (P m)); [|done].
  by rewrite IH.
Qed.

(** The version of a table to which an ascending run of migrations above
    its version has been added is the version of the last of them. *)
Lemma current_of_applied rows done d :
  ascending (done ++ [d]) →
  Forall (λ m, current_of rows < version m) (done ++ [d]) →
  current_of (rows ++ (row_of <$> done ++ [d])) = version d.
Proof.
  intros Hasc Habove. unfold current_of at 1.
  assert (max_version (rows ++ (row_of <$> done ++ [d])) = Some (version d))
    as ->; [|done].
  apply max_version_spec. split.
  - apply Forall_app. split.
    + apply Forall_forall. intros r Hr. apply current_of_bounds in Hr.
      apply Forall_app in Habove as [_ Hd]. rewrite Forall_singleton in Hd.
      lia.
    + apply Forall_fmap, Forall_forall. intros m Hm. simpl.
      apply elem_of_app in Hm as [Hm|Hm].
      * apply (StronglySorted_app_1_elem_of _ _ _ _ _ Hasc Hm).
        by apply list_elem_of_singleton.
      * by apply list_elem_of_singleton in Hm as ->.
  - exists (row_of d). split; [|done]. apply elem_of_app. right.
    apply list_elem_of_fmap. exists d. split; [done|].
    apply elem_of_app. right. by apply list_elem_of_singleton.
Qed.

Lemma apply_statements_needs_table raises st m st' :
  apply_statements raises st m = inr st' → is_Some (migrations_table st).
Proof.
  destruct (migrations_table st) as [rows|] eqn:Htable; [eauto|].
  unfold apply_statements, attempt. simpl. rewrite Htable.
  repeat case_match; done.
Qed.

Lemma applied_from_rows raises st done st' :
  applied_from raises st done st' →
  default [] (migrations_table st')
    = default [] (migrations_table st) ++ (row_of <$> done).
Proof.
  intros Happlied.
  rewrite (applied_from_records raises _ _ _ Happlied).
  destruct Happlied as [st|st m st0 ms st'' Hfirst _].
  - destruct (migrations_table st); simpl; by rewrite ?app_nil_r.
  - by destruct (apply_statements_needs_table _ _ _ _ Hfirst) as [rows ->].
Qed.

Section Runner.

Context (raises : Store → Statement → option string)
  (migrations : list Migration).

(** The version query on a store whose table exists. *)
Lemma get_current_version_of_table st rows :
  raises st SelectMigrationsTable = None →
  raises st SelectMaxVersion = None →
  migrations_table st = Some rows →
  get_current_version raises st = (current_of rows, st, []).
Proof.
  intros Hselect Hmax Htable. unfold get_current_version, current_of.
  rewrite Hselect, Htable, Hmax.
  destruct (max_version rows) as [v|]; [|done].
  by case_decide; subst.
Qed.

(** Whatever raises, the version query answers 0 when there is no table,
    and leaves a store that has one as it is. *)
Lemma get_current_version_without_table st :
  migrations_table st = None →
  (get_current_version raises st).1.1 = 0
  ∧ ((get_current_version raises st).1.2 = st
     ∨ (get_current_version raises st).1.2 = mkStore (Some []) (executed st)).
Proof.
  intros Htable. unfold get_current_version. rewrite Htable.
  repeat case_match; simpl; auto.
Qed.

Lemma get_current_version_keeps_table st rows :
  migrations_table st = Some rows →
  (get_current_version raises st).1.2 = st.
Proof.
  intros Htable. unfold get_current_version. rewrite Htable.
  repeat case_match; done.
Qed.

(** The version query on a store whose queries do not raise answers the
    version of the table, 0 without one, and changes no row. *)
Lemma get_current_version_reads_table st :
  raises st SelectMigrationsTable = None →
  raises st SelectMaxVersion = None →
  (get_current_version raises st).1.1
    = current_of (default [] (migrations_table st)).
Proof.
  intros Hselect Hmax.
  destruct (migrations_table st) as [rows|] eqn:Htable.
  - by rewrite (get_current_version_of_table st rows).
  - unfold get_current_version. rewrite Hselect, Htable.
    repeat case_match; done.
Qed.

Lemma get_current_version_keeps_rows st :
  default [] (migrations_table (get_current_version raises st).1.2)
    = default [] (migrations_table st).
Proof.
  destruct (migrations_table st) as [rows|] eqn:Htable.
  - by rewrite (get_current_version_keeps_table st rows), Htable.
  - destruct (get_current_version_without_table st Htable) as [_ [->| ->]];
      [by rewrite Htable|done].
Qed.

(** *** Runs on which nothing raises *)

Lemma never_undisturbed : never raises → undisturbed raises.
Proof. intros Hnever st stmt _. apply Hnever. Qed.

Lemma apply_statements_quiet st rows m :
  undisturbed raises → migrations_table st = Some rows →
  ∃ st',
    apply_statements raises st m = inr st'
    ∧ migrations_table st' = Some (rows ++ [row_of m]).
Proof.
  intros Hquiet Htable. unfold undisturbed in Hquiet.
  unfold apply_statements, attempt.
  destruct (blank (sql m)); rewrite ?Hquiet by done; simpl; rewrite ?Htable;
    rewrite ?Hquiet by done; eauto.
Qed.

Lemma apply_in_order_quiet st rows ms :
  undisturbed raises → migrations_table st = Some rows →
  migrations_table (apply_in_order raises st ms).1
    = Some (rows ++ (row_of <$> ms))
  ∧ attempted (apply_in_order raises st ms).2 = version <$> ms.
Proof.
  intros Hnever. revert st rows.
  induction ms as [|m ms IH]; intros st rows Htable; simpl.
  - by rewrite app_nil_r.
  - unfold apply_migration.
    destruct (apply_statements_quiet st rows m Hnever Htable)
      as (st' & -> & Htable').
    destruct (IH st' _ Htable') as [IHtable IHout].
    destruct (apply_in_order raises st' ms) as [st'' out']. simpl in *.
    rewrite IHtable, IHout, <- app_assoc. done.
Qed.

Lemma get_current_version_quiet st :
  never raises →
  let rows := default [] (migrations_table st) in
  get_current_version raises st
    = (current_of rows, mkStore (Some rows) (executed st), []).
Proof.
  intros Hnever rows. subst rows.
  destruct (migrations_table st) as [rows|] eqn:Htable.
  - rewrite (get_current_version_of_table st rows) by done.
    destruct st. simpl in *. by subst.
  - unfold never in Hnever. unfold get_current_version.
    by rewrite !Hnever, Htable.
Qed.

Lemma run_migrations_quiet st :
  never raises →
  let rows := default [] (migrations_table st) in
  migrations_table (run_migrations raises migrations st).1
    = Some (rows
            ++ (row_of <$> sorted_by_version
                             (pending migrations (current_of rows)))).
Proof.
  intros Hnever rows. unfold run_migrations.
  rewrite (get_current_version_quiet st Hnever). fold rows.
  destruct (pending migrations (current_of rows)) as [|m ms] eqn:Hpending.
  - simpl. by rewrite app_nil_r.
  - pose proof (apply_in_order_quiet (mkStore (Some rows) (executed st)) rows
                  (sorted_by_version (m :: ms)) (never_undisturbed Hnever)
                  eq_refl)
      as [Htable _].
    destruct (apply_in_order raises _ _) as [st' out]. done.
Qed.

(** After a run on which nothing raised, no registered migration is above
    the version of the table. *)
Lemma run_migrations_quiet_reaches_all st m :
  never raises → m ∈ migrations →
  ∃ rows,
    migrations_table (run_migrations raises migrations st).1 = Some rows
    ∧ version m ≤ current_of rows.
Proof.
  intros Hnever Hm. eexists. split; [by apply run_migrations_quiet|].
  set (rows := default [] (migrations_table st)).
  set (done := sorted_by_version (pending migrations (current_of rows))).
  destruct (decide (current_of rows < version m)) as [Hpending|Hold].
  - apply (current_of_bounds _ (row_of m)).
    apply elem_of_app. right. apply list_elem_of_fmap. exists m.
    split; [done|]. subst done. rewrite sorted_by_version_perm.
    by apply list_elem_of_filter.
  - destruct rows as [|r rows'] eqn:Hrows.
    + destruct done as [|d done'] eqn:Hdone; [simpl in *; lia|].
      assert (d ∈ pending migrations (current_of [])) as Hd.
      { rewrite <- sorted_by_version_perm. fold done.
        replace done with (d :: done') by done. by left. }
      apply list_elem_of_filter in Hd as [Hd _].
      pose proof (current_of_bounds ([] ++ (row_of <$> d :: done'))
                    (row_of d)) as Hbound.
      simpl in *. etrans; [|apply Hbound; by left]. lia.
    + destruct (current_of_attained (r :: rows')) as (r0 & Hr0 & Heq);
        [done|].
      etrans; [|apply (current_of_bounds _ r0);
                apply elem_of_app; by left].
      lia.
Qed.

(** X23. Running the migrations again after a run on which nothing raised
    does nothing: the second run finds every registered migration at or
    below the version of the table, prints that the database is up to date
    and leaves the store as it is.  No migration is applied twice. *)
Theorem run_migrations_twice_is_once st :
  never raises →
  let st1 := (run_migrations raises migrations st).1 in
  let current := (get_current_version raises st1).1.1 in
  pending migrations current = []
  ∧ run_migrations raises migrations st1
    = (st1, [CurrentVersion current; UpToDate]).
Proof.
  intros Hnever st1 current.
  pose proof (run_migrations_quiet st Hnever) as Htable. fold st1 in Htable.
  simpl in Htable.
  pose proof (get_current_version_of_table st1 _ (Hnever _ _) (Hnever _ _)
                Htable) as Hversion.
  assert (pending migrations current = []) as Hnone.
  { destruct (pending migrations current) as [|m ms] eqn:Hpending; [done|].
    exfalso.
    assert (m ∈ pending migrations current) as Hm
      by (rewrite Hpending; by left).
    apply list_elem_of_filter in Hm as [Hlt Hin].
    destruct (run_migrations_quiet_reaches_all st m Hnever Hin)
      as (rows & Hrows & Hle).
    fold st1 in Hrows. rewrite Htable in Hrows. simplify_eq.
    subst current. rewrite Hversion in Hlt. simpl in Hlt. lia. }
  split; [done|].
  unfold run_migrations. fold current in Hnone.
  subst current. rewrite Hversion in *. simpl in *. by rewrite Hnone.
Qed.

End Runner.

Lemma run_migrations_twice_is_once_witness :
  let st1 := (run_migrations never_raises registered empty_store).1 in
  let current := (get_current_version never_raises st1).1.1 in
  pending registered current = []
  ∧ run_migrations never_raises registered st1
    = (st1, [CurrentVersion current; UpToDate]).
Proof.
  apply (run_migrations_twice_is_once never_raises registered empty_store).
  intros st stmt. reflexivity.
Defined.

Section Resume.

Context (raises raises2 : Store → Statement → option string)
  (migrations : list Migration).

(** X24. A run that stopped at a failing migration is taken up by the next
    run at that migration.  When no two registered migrations share a
    version and the version queries of both runs do not raise, the first
    run splits its pending migrations into those it applied and the rest,
    and the pending migrations of the next run, sorted, are exactly that
    rest: nothing applied is applied again and nothing is skipped. *)
Theorem failed_run_is_resumed st :
  NoDup (version <$> migrations) →
  raises st SelectMigrationsTable = None →
  raises st SelectMaxVersion = None →
  let current := (get_current_version raises st).1.1 in
  let st0 := (get_current_version raises st).1.2 in
  let st1 := (run_migrations raises migrations st).1 in
  raises2 st1 SelectMigrationsTable = None →
  raises2 st1 SelectMaxVersion = None →
  ∃ done rest,
    sorted_by_version (pending migrations current) = done ++ rest
    ∧ applied_from raises st0 done st1
    ∧ sorted_by_version
        (pending migrations (get_current_version raises2 st1).1.1)
      = rest.
Proof.
  intros Hnodup Hselect Hmax current st0 st1 Hselect2 Hmax2.
  assert (∃ done rest,
            sorted_by_version (pending migrations current) = done ++ rest
            ∧ applied_from raises st0 done st1)
    as (done & rest & Hsplit & Happlied).
  { subst current st0 st1. unfold run_migrations.
    destruct (get_current_version raises st) as [[cur s0] out0]. simpl.
    destruct (pending migrations cur) as [|m ms] eqn:Hpending.
    - exists [], []. split; [done|constructor].
    - destruct (apply_in_order_prefix raises s0
                  (sorted_by_version (m :: ms)))
        as (done & rest & Hsplit & Happlied & _).
      destruct (apply_in_order raises s0 _) as [s' out]. simpl in *. eauto. }
  exists done, rest. split; [done|]. split; [done|].
  rewrite (get_current_version_reads_table raises2 st1 Hselect2 Hmax2).
  rewrite (applied_from_rows _ _ _ _ Happlied). subst st0.
  rewrite get_current_version_keeps_rows.
  pose proof (get_current_version_reads_table raises st Hselect Hmax)
    as Hcurrent.
  fold current in Hcurrent.
  set (rows := default [] (migrations_table st)) in *.
  assert (done = [] ∨ ∃ done' d, done = done' ++ [d])
    as [->|(done' & d & ->)]
    by (destruct done using rev_ind; eauto).
  { simpl. by rewrite app_nil_r, <- Hcurrent. }
  pose proof (sorted_by_version_ascending (pending migrations current))
    as Hasc.
  rewrite Hsplit in Hasc.
  assert (Forall (λ m, current < version m) ((done' ++ [d]) ++ rest))
    as Habove.
  { apply Forall_forall. intros m Hm. rewrite <- Hsplit in Hm.
    rewrite sorted_by_version_perm in Hm.
    by apply list_elem_of_filter in Hm as [Hm _]. }
  assert (NoDup (version <$> (done' ++ [d]) ++ rest)) as Hdistinct.
  { rewrite <- Hsplit, sorted_by_version_perm.
    eapply sublist_NoDup; [exact Hnodup|].
    apply fmap_sublist, sublist_filter. }
  rewrite current_of_applied.
  - replace (pending migrations (version d))
      with (filter (λ m, version d < version m)
              (pending migrations current)).
    + rewrite <- filter_sorted_by_version, Hsplit, filter_app.
      rewrite filter_none, filter_all; [done| |].
      * apply Forall_forall. intros m Hm.
        assert (version d ≤ version m) as Hle.
        { apply (StronglySorted_app_1_elem_of _ _ _ d m Hasc); [|done].
          apply elem_of_app. right. by apply list_elem_of_singleton. }
        assert (version d ≠ version m); [|simpl; lia].
        rewrite fmap_app in Hdistinct.
        apply NoDup_app in Hdistinct as (_ & Hapart & _).
        intros Heq. apply (Hapart (version d)).
        -- apply list_elem_of_fmap. exists d. split; [done|].
           apply elem_of_app. right. by apply list_elem_of_singleton.
        -- apply list_elem_of_fmap. by exists m.
      * apply Forall_forall. intros m Hm.
        apply StronglySorted_app_1_l in Hasc.
        apply elem_of_app in Hm as [Hm|Hm].
        -- assert (version m ≤ version d) as Hle; [|simpl; lia].
           apply (StronglySorted_app_1_elem_of _ _ _ m d Hasc Hm).
           by apply list_elem_of_singleton.
        -- apply list_elem_of_singleton in Hm as ->. lia.
    + unfold pending. rewrite list_filter_filter.
      apply list_filter_iff. intros m.
      apply Forall_app in Habove as [Hdone _].
      apply Forall_app in Hdone as [_ Hd]. rewrite Forall_singleton in Hd.
      lia.
  - by apply StronglySorted_app_1_l in Hasc.
  - apply Forall_app in Habove as [Hdone _]. by rewrite <- Hcurrent.
Qed.

End Resume.

Lemma failed_run_is_resumed_witness :
  let st1 := (run_migrations refuses_third registered empty_store).1 in
  ∃ done rest,
    sorted_by_version
      (pending registered
         (get_current_version refuses_third empty_store).1.1)
    = done ++ rest
    ∧ applied_from refuses_third
        (get_current_version refuses_third empty_store).1.2 done st1
    ∧ sorted_by_version
        (pending registered (get_current_version never_raises st1).1.1)
      = rest.
Proof.
  apply (failed_run_is_resumed refuses_third never_raises registered
           empty_store).
  - apply (bool_decide_unpack _). vm_compute. reflexivity.
  - reflexivity.
  - reflexivity.
  - reflexivity.
  - reflexivity.
Defined.

Section Commands.

Context (raises : Store → Statement → option string)
  (migrations : list Migration).

(** X25. [get_current_version] answers every exception with version 0.
    When its first query raises on a database whose table records
    migrations, and nothing else raises, the run takes every registered
    migration with a positive version for pending: all of them are applied
    and recorded again, after the rows that were there. *)
Theorem failed_version_query_applies_all_again st rows e :
  raises st SelectMigrationsTable = Some e →
  undisturbed raises →
  migrations_table st = Some rows →
  let all := sorted_by_version (filter (λ m, 0 < version m) migrations) in
  (get_current_version raises st).1.1 = 0
  ∧ migrations_table (run_migrations raises migrations st).1
    = Some (rows ++ (row_of <$> all))
  ∧ attempted (run_migrations raises migrations st).2 = version <$> all.
Proof.
  intros Hraised Hquiet Htable all. subst all.
  assert (get_current_version raises st = (0, st, [ErrorGettingVersion e]))
    as Hversion by (unfold get_current_version; by rewrite Hraised).
  unfold run_migrations, pending. rewrite Hversion.
  split; [done|].
  destruct (filter (λ m, 0 < version m) migrations) as [|m ms].
  - simpl. by rewrite app_nil_r.
  - destruct (apply_in_order_quiet raises st rows
                (sorted_by_version (m :: ms)) Hquiet Htable)
      as [Hrows Hattempted].
    destruct (apply_in_order raises st _) as [st' out]. done.
Qed.

(** X26. After a run on which nothing raised, [show_migrations] lists no
    registered migration as pending, and leaves the store as it is. *)
Theorem status_after_run_lists_nothing_pending st :
  never raises →
  let st1 := (run_migrations raises migrations st).1 in
  (show_migrations raises migrations st1).2 = st1
  ∧ ∀ v n,
      StatusRow v false n ∉ (show_migrations raises migrations st1).1.1.2.
Proof.
  intros Hnever st1.
  pose proof (run_migrations_quiet raises migrations st Hnever) as Htable.
  fold st1 in Htable. simpl in Htable.
  pose proof (get_current_version_of_table raises st1 _ (Hnever _ _)
                (Hnever _ _) Htable) as Hversion.
  assert (∀ v n,
            StatusRow v false n
              ∉ (λ m, StatusRow (version m)
                        (bool_decide
                           (version m
                            ≤ (get_current_version raises st1).1.1))
                        (name m)) <$> migrations) as Hrows.
  { intros v n (m & Heq & Hm)%list_elem_of_fmap.
    injection Heq as _ Hflag _. symmetry in Hflag.
    apply bool_decide_eq_false in Hflag.
    destruct (run_migrations_quiet_reaches_all raises migrations st m
                Hnever Hm) as (rows & Hrows & Hle).
    fold st1 in Hrows. rewrite Htable in Hrows. simplify_eq.
    rewrite Hversion in Hflag. simpl in Hflag. lia. }
  unfold show_migrations.
  destruct (get_current_version raises st1) as [[current st0] out0] eqn:Hget.
  simpl in Hrows. simplify_eq.
  destruct (latest_version migrations); simpl.
  - split; [done|]. intros v n [Hin|Hin]%elem_of_app.
    + by apply (Hrows v n).
    + repeat (apply elem_of_cons in Hin as [Hin|Hin]; [done|]).
      by apply elem_of_nil in Hin.
  - split; [done|]. intros v n [Hin|Hin]%elem_of_app.
    + by apply (Hrows v n).
    + repeat (apply elem_of_cons in Hin as [Hin|Hin]; [done|]).
      by apply elem_of_nil in Hin.
Qed.

(** X27. A reset that reports success empties the [migrations] table, so
    that the next run on which nothing raises applies and records every
    registered migration with a positive version again, in the order of the
    versions. *)
Theorem reset_then_run_applies_all_again reset_raises confirm st :
  never raises →
  (reset_database reset_raises confirm st).2 = [ResetDone] →
  let st1 := (reset_database reset_raises confirm st).1 in
  Files.lower confirm = "yes"
  ∧ is_Some (migrations_table st)
  ∧ migrations_table st1 = Some []
  ∧ migrations_table (run_migrations raises migrations st1).1
    = Some (row_of <$> sorted_by_version
                         (filter (λ m, 0 < version m) migrations)).
Proof.
  intros Hnever Hdone st1.
  assert (Files.lower confirm = "yes"
          ∧ is_Some (migrations_table st)
          ∧ st1 = mkStore (Some []) (executed st)) as (Hyes & Htable & Hst1).
  { subst st1. unfold reset_database in *.
    repeat case_match; simplify_eq; eauto. }
  split; [done|]. split; [done|]. rewrite Hst1. split; [done|].
  by rewrite (run_migrations_quiet raises migrations _ Hnever).
Qed.

End Commands.

Lemma failed_version_query_applies_all_again_witness :
  let st := (run_migrations never_raises registered empty_store).1 in
  let all :=
    sorted_by_version (filter (λ m, 0 < version m) registered) in
  (get_current_version version_query_fails st).1.1 = 0
  ∧ migrations_table (run_migrations version_query_fails registered st).1
    = Some ((row_of <$> registered) ++ (row_of <$> all))
  ∧ attempted (run_migrations version_query_fails registered st).2
    = version <$> all.
Proof.
  apply (failed_version_query_applies_all_again version_query_fails
           registered
           (run_migrations never_raises registered empty_store).1
           (row_of <$> registered) "database is locked").
  - reflexivity.
  - intros st stmt Hstmt. destruct stmt; [done|reflexivity..].
  - reflexivity.
Defined.

Lemma status_after_run_lists_nothing_pending_witness :
  let st1 := (run_migrations never_raises registered empty_store).1 in
  (show_migrations never_raises registered st1).2 = st1
  ∧ ∀ v n,
      StatusRow v false n
        ∉ (show_migrations never_raises registered st1).1.1.2.
Proof.
  apply (status_after_run_lists_nothing_pending never_raises registered
           empty_store).
  intros st stmt. reflexivity.
Defined.

Lemma reset_then_run_applies_all_again_witness :
  let st := (run_migrations never_raises registered empty_store).1 in
  let st1 := (reset_database resets "YES" st).1 in
  Files.lower "YES" = "yes"
  ∧ is_Some (migrations_table st)
  ∧ migrations_table st1 = Some []
  ∧ migrations_table (run_migrations never_raises registered st1).1
    = Some (row_of <$> sorted_by_version
                         (filter (λ m, 0 < version m) registered)).
Proof.
  apply (reset_then_run_applies_all_again never_raises registered resets
           "YES" (run_migrations never_raises registered empty_store).1).
  - intros st stmt. reflexivity.
  - reflexivity.
Defined.

End MigrationToolFacts.
